(** * chzzk-js: the event dispatcher, the REST token-refresh interceptor and
    the realtime chat session of [src/chzzk.js], embedded in Rocq.

    The class [Chzzk] keeps all of its state in fields of [this]; the
    embedding passes that state explicitly.  JavaScript objects used as
    dictionaries become [gmap string _], arrays become lists, exceptions
    become a [completion] result, and everything the browser or the server
    decides (socket events, timers, HTTP replies, the clock) is an explicit
    input. *)

From stdpp Require Import gmap strings list numbers.

Open Scope Z_scope.

(** ** Exceptions and completions *)

(** What a JavaScript [throw] can carry in the modelled code. *)
Inductive exn : Type :=
| Error (message : string)          (* [new Error(message)] *)
| TypeError (message : string)      (* raised by the engine itself *)
| Thrown (tag : nat)                (* any value thrown by user code *)
| AxiosError (status : option Z) (message : option string) (body : option string)
    (* a failed HTTP request: [status] is [error.response.status] when there
       is a response, [body] is [JSON.stringify(error.response.data)] when
       that data is truthy, [message] its truthy [message] property *)
| WebSocketError (tag : nat).       (* the event handed to [onerror] *)

(** A call either returns a value or throws. *)
Inductive completion (A : Type) : Type :=
| Returns (a : A)
| Throws (e : exn).
Arguments Returns {A} a.
Arguments Throws {A} e.

Definition exn_message (e : exn) : string :=
  match e with
  | Error m | TypeError m => m
  | _ => "undefined"
  end.



(** ** 8. Event handling: [on], [off], [once], [_triggerEvent] *)

Module Events.

(** A handler is a function object.  Function objects are compared by
    reference ([indexOf] uses strict equality), so each one carries its
    reference [href].  [UserFn] is a subscriber supplied by the caller: when
    invoked it may call [off] some number of times and may then throw
    (subscribers that register further handlers while they run are not
    modelled).
    [OnceHandler] is the closure [onceHandler] built by [once]. *)
#[warnings="-register-all"]
Inductive handler : Type :=
| UserFn (href : nat) (body : list (string * handler)) (raises : option exn)
| OnceHandler (href : nat) (eventName : string) (inner : handler).

Definition href (h : handler) : nat :=
  match h with
  | UserFn r _ _ => r
  | OnceHandler r _ _ => r
  end.

(** [this.eventHandlers]: own properties only. *)
Abbreviation registry := (gmap string (list handler)).

(** The nine keys of the object literal in the constructor. *)
Definition event_names : list string :=
  [ "tokenRefresh"; "tokenExpired"; "chatMessage"; "chatDonation";
    "chatSubscription"; "chatNotice"; "chatError"; "chatConnected";
    "chatDisconnected" ]%string.

Definition constructor_eventHandlers : registry :=
  <["tokenRefresh" := []]> (<["tokenExpired" := []]> (<["chatMessage" := []]>
  (<["chatDonation" := []]> (<["chatSubscription" := []]>
  (<["chatNotice" := []]> (<["chatError" := []]> (<["chatConnected" := []]>
  (<["chatDisconnected" := []]> ∅)))))))).

(** [eventHandlers] is a plain object, so a property read that misses the
    own properties continues in [Object.prototype]. *)
Definition Object_prototype : list string :=
  [ "constructor"; "__defineGetter__"; "__defineSetter__"; "hasOwnProperty";
    "__lookupGetter__"; "__lookupSetter__"; "isPrototypeOf";
    "propertyIsEnumerable"; "toString"; "valueOf"; "__proto__";
    "toLocaleString" ]%string.

(** The value of [this.eventHandlers[eventName]]. *)
Inductive slot : Type :=
| Handlers (arr : list handler)   (* an own property: an array, truthy *)
| Inherited                       (* a member of Object.prototype: truthy, not an array *)
| Undefined.                      (* falsy *)

Definition get (reg : registry) (eventName : string) : slot :=
  match reg !! eventName with
  | Some arr => Handlers arr
  | None => if bool_decide (eventName ∈ Object_prototype) then Inherited else Undefined
  end.

(** [arr.indexOf(handler)]; [None] stands for -1. *)
Fixpoint indexOf (arr : list handler) (h : handler) : option nat :=
  match arr with
  | [] => None
  | x :: rest =>
      if Nat.eqb (href x) (href h) then Some 0%nat
      else S <$> indexOf rest h
  end.

(** [off(eventName, handler)] *)
Definition off (reg : registry) (eventName : string) (h : handler)
  : completion registry :=
  match get reg eventName with
  | Undefined => Returns reg
  | Inherited => Throws (TypeError "this.eventHandlers[eventName].indexOf is not a function")
  | Handlers arr =>
      match indexOf arr h with
      | Some index => Returns (<[eventName := delete index arr]> reg)
      | None => Returns reg
      end
  end.

(** [on(eventName, handler)]: the new registry and the returned closure
    [() => { this.off(eventName, handler); }]. *)
Definition on (reg : registry) (eventName : string) (h : handler)
  : completion (registry * (registry → completion registry)) :=
  match get reg eventName with
  | Undefined => Throws (Error ("지원하지 않는 이벤트: " +:+ eventName))
  | Inherited => Throws (TypeError "this.eventHandlers[eventName].push is not a function")
  | Handlers arr =>
      Returns (<[eventName := arr ++ [h]]> reg, λ reg', off reg' eventName h)
  end.

(** [once(eventName, handler)]; [ref] is the reference of the closure
    [onceHandler] that this call creates. *)
Definition once (reg : registry) (ref : nat) (eventName : string) (h : handler)
  : completion (registry * (registry → completion registry)) :=
  on reg eventName (OnceHandler ref eventName h).

(** The statements of a user handler, in order, until one throws. *)
Fixpoint run_body (body : list (string * handler)) (reg : registry)
  : registry * completion unit :=
  match body with
  | [] => (reg, Returns tt)
  | (eventName, h) :: rest =>
      match off reg eventName h with
      | Returns reg' => run_body rest reg'
      | Throws e => (reg, Throws e)
      end
  end.

(** [handler(data)] *)
Fixpoint call (h : handler) (reg : registry) : registry * completion unit :=
  match h with
  | UserFn _ body raises =>
      match run_body body reg with
      | (reg', Returns _) =>
          (reg', match raises with Some e => Throws e | None => Returns tt end)
      | (reg', Throws e) => (reg', Throws e)
      end
  | OnceHandler _ eventName inner =>
      match off reg eventName h with
      | Returns reg' => call inner reg'
      | Throws e => (reg, Throws e)
      end
  end.

(** What a dispatch leaves behind: the registry, the calls made by the loop
    and the lines written with [console.error]. *)
Record dispatch (D : Type) : Type := Dispatch {
  handlers_now : registry;
  invoked : list (handler * D);
  console_error : list (string * exn)
}.
Arguments Dispatch {D} _ _ _.
Arguments handlers_now {D} _.
Arguments invoked {D} _.
Arguments console_error {D} _.

(** [for (const handler of this.eventHandlers[eventName]) { try ... catch }].
    The array iterator keeps an index into the live array: every step reads
    the current length.  [None] means the fuel ran out. *)
Fixpoint for_of {D} (fuel : nat) (eventName : string) (data : D) (i : nat)
  (st : dispatch D) : option (dispatch D) :=
  match fuel with
  | O => None
  | S fuel' =>
      match handlers_now st !! eventName with
      | None => Some st
      | Some arr =>
          match arr !! i with
          | None => Some st
          | Some h =>
              let '(reg', c) := call h (handlers_now st) in
              for_of fuel' eventName data (S i)
                (Dispatch reg' (invoked st ++ [(h, data)])
                   match c with
                   | Returns _ => console_error st
                   | Throws e => console_error st ++ [(eventName, e)]
                   end)
          end
      end
  end.

(** [_triggerEvent(eventName, data)] *)
Definition _triggerEvent {D} (reg : registry) (eventName : string) (data : D)
  : option (completion (dispatch D)) :=
  match get reg eventName with
  | Undefined => Some (Returns (Dispatch reg [] []))
  | Inherited => Some (Throws (TypeError "this.eventHandlers[eventName] is not iterable"))
  | Handlers arr =>
      Returns <$> for_of (S (length arr)) eventName data 0%nat (Dispatch reg [] [])
  end.

(** The public calls on the dispatcher and the registries they lead to. *)
Inductive api_call : Type :=
| CallOn (eventName : string) (h : handler)
| CallOff (eventName : string) (h : handler)
| CallOnce (ref : nat) (eventName : string) (h : handler)
| Emit (eventName : string).

Definition registry_of {A} (c : completion (registry * A)) (reg : registry) : registry :=
  match c with
  | Returns (reg', _) => reg'
  | Throws _ => reg
  end.

Definition after (reg : registry) (c : api_call) : registry :=
  match c with
  | CallOn n h => registry_of (on reg n h) reg
  | CallOff n h => match off reg n h with Returns reg' => reg' | Throws _ => reg end
  | CallOnce r n h => registry_of (once reg r n h) reg
  | Emit n =>
      match _triggerEvent reg n tt with
      | Some (Returns d) => handlers_now d
      | _ => reg
      end
  end.

Inductive reachable : registry → Prop :=
| reach_constructor : reachable constructor_eventHandlers
| reach_call reg c : reachable reg → reachable (after reg c).

(** A subscriber that neither deregisters anything nor wraps another one. *)
Definition plain (h : handler) : Prop :=
  match h with
  | UserFn _ [] _ => True
  | _ => False
  end.

Definition raised (eventName : string) (h : handler) : option (string * exn) :=
  match h with
  | UserFn _ _ (Some e) => Some (eventName, e)
  | _ => None
  end.

(** [shrinks reg reg']: the same keys, and no array got longer. *)
Definition shrinks (reg reg' : registry) : Prop :=
  dom reg' = dom reg ∧
  ∀ m arr, reg !! m = Some arr →
    ∃ arr', reg' !! m = Some arr' ∧ (length arr' ≤ length arr)%nat.





(** The two subscribers of the failing input of C7. *)
Definition subscriberA : handler := UserFn 1 [] None.
Definition subscriberB : handler := UserFn 2 [] None.

(** [once('chatMessage', A); on('chatMessage', B)] on a fresh client. *)
Definition once_then_on : registry :=
  after (after constructor_eventHandlers (CallOnce 3 "chatMessage" subscriberA))
        (CallOn "chatMessage" subscriberB).

End Events.

(** ** 9. Inbound chat frames: [_handleChatMessage] *)

Module Frames.

(** The values [JSON.parse] can return, and [undefined] for a property that
    is not there.  Numbers are kept as integers. *)
#[warnings="-register-all"]
Inductive value : Type :=
| VUndefined
| VNull
| VBool (b : bool)
| VNum (n : Z)
| VStr (s : string)
| VArr (items : list value)
| VObj (props : list (string * value)).

(** [ToBoolean] *)
Definition truthy (v : value) : bool :=
  match v with
  | VUndefined | VNull => false
  | VBool b => b
  | VNum n => negb (n =? 0)
  | VStr s => negb (String.eqb s "")
  | VArr _ | VObj _ => true
  end.

(** [a || b] *)
Definition js_or (a b : value) : value := if truthy a then a else b.

(** [!!a] *)
Definition js_bool (a : value) : value := VBool (truthy a).

(** An own property of an object literal or of a parsed object; each key is
    listed once. *)
Fixpoint prop (props : list (string * value)) (key : string) : value :=
  match props with
  | [] => VUndefined
  | (k, v) :: rest => if String.eqb k key then v else prop rest key
  end.

(** [message.key]: reading a property of [null] or [undefined] throws, a
    primitive or an array has none of the keys read here. *)
Definition member (message : value) (key : string) : completion value :=
  match message with
  | VUndefined | VNull =>
      Throws (TypeError ("Cannot read properties of null or undefined, reading " +:+ key))
  | VObj props => Returns (prop props key)
  | _ => Returns VUndefined
  end.

(** [_handleChatMessage(message)]: the call of [_triggerEvent] it makes, if
    any.  [chatChannelId] is the field of [this], [now] is [Date.now()]. *)
Definition _handleChatMessage (chatChannelId : value) (now : Z) (message : value)
  : completion (option (string * value)) :=
  match member message "type" with
  | Throws e => Throws e
  | Returns type =>
      let get := λ key,
        match message with VObj props => prop props key | _ => VUndefined end in
      match type with
      | VStr "CHAT" =>
          Returns (Some ("chatMessage", VObj [
            ("type", VStr "message");
            ("channelId", chatChannelId);
            ("userId", get "userId");
            ("nickname", get "nickname");
            ("message", get "content");
            ("badges", js_or (get "badges") (VArr []));
            ("timestamp", js_or (get "timestamp") (VNum now)) ]))
      | VStr "DONATION" =>
          Returns (Some ("chatDonation", VObj [
            ("type", VStr "donation");
            ("channelId", chatChannelId);
            ("userId", get "userId");
            ("nickname", get "nickname");
            ("message", get "content");
            ("amount", get "amount");
            ("currency", js_or (get "currency") (VStr "KRW"));
            ("isAnonymous", js_bool (get "isAnonymous"));
            ("badges", js_or (get "badges") (VArr []));
            ("timestamp", js_or (get "timestamp") (VNum now)) ]))
      | VStr "SUBSCRIPTION" =>
          Returns (Some ("chatSubscription", VObj [
            ("type", VStr "subscription");
            ("channelId", chatChannelId);
            ("userId", get "userId");
            ("nickname", get "nickname");
            ("message", get "content");
            ("months", js_or (get "months") (VNum 1));
            ("tier", js_or (get "tier") (VNum 1));
            ("tierName", js_or (get "tierName") (VStr "기본 구독"));
            ("badges", js_or (get "badges") (VArr []));
            ("timestamp", js_or (get "timestamp") (VNum now)) ]))
      | VStr "NOTICE" =>
          Returns (Some ("chatNotice", VObj [
            ("type", VStr "notice");
            ("channelId", chatChannelId);
            ("message", get "content");
            ("noticeType", js_or (get "noticeType") (VStr "NORMAL"));
            ("timestamp", js_or (get "timestamp") (VNum now)) ]))
      | VStr "PONG" => Returns None
      | _ => Returns None
      end
  end.

(** The [data] argument of the [_triggerEvent] call, if there is one. *)
Definition emitted_field (r : completion (option (string * value))) (key : string)
  : option value :=
  match r with
  | Returns (Some (_, VObj props)) => Some (prop props key)
  | _ => None
  end.

Definition emitted_name (r : completion (option (string * value))) : option string :=
  match r with
  | Returns (Some (name, _)) => Some name
  | _ => None
  end.

(** [{"type":"CHAT","userId":"u1","nickname":"n","content":"hi"}] *)
Definition chat_frame : value :=
  VObj [("type", VStr "CHAT"); ("userId", VStr "u1"); ("nickname", VStr "n");
        ("content", VStr "hi")].

(** [{"type":"SUBSCRIPTION","userId":"u1","nickname":"n","content":"hi"}] *)
Definition subscription_frame : value :=
  VObj [("type", VStr "SUBSCRIPTION"); ("userId", VStr "u1"); ("nickname", VStr "n");
        ("content", VStr "hi")].

End Frames.

(** ** The HTTP client, its response interceptor and the token helpers *)

Module Rest.

(** A string-valued field that may also be [undefined]. *)
Definition truthy (s : option string) : bool :=
  match s with
  | Some s => negb (String.eqb s "")
  | None => false
  end.

(** The fields of [this] that the REST layer reads and writes. *)
Record auth : Type := Auth {
  accessToken : option string;
  refreshToken : option string;
  autoRefreshToken : bool;
  tokenExpiry : option Z;
  tokenRefreshThresholdMs : Z
}.

(** The body of a 2xx reply: the three fields of a token reply, or the
    [content.accessToken] of a chat-token reply, or anything else. *)
Inductive data : Type :=
| TokenData (accessToken refreshToken : option string) (expiresIn : option Z)
| ChatTokenData (content_accessToken : option string)
| OtherData (tag : nat).

Definition data_accessToken (d : data) : option string :=
  match d with TokenData a _ _ => a | _ => None end.
Definition data_refreshToken (d : data) : option string :=
  match d with TokenData _ r _ => r | _ => None end.
Definition data_expiresIn (d : data) : option Z :=
  match d with TokenData _ _ x => x | _ => None end.
Definition data_content_accessToken (d : data) : option string :=
  match d with ChatTokenData a => a | _ => None end.

(** What the server answers to one request. *)
Inductive reply : Type :=
| Ok (d : data)
| Failed (status : Z) (message : option string) (body : option string)
| NoReply.

(** A request as the adapter sends it: the path and the bearer token of its
    [Authorization] header, if it has that header. *)
Record request : Type := Request {
  path : string;
  authorization : option (option string)
}.

(** The client together with its surroundings: the replies still to come,
    each with the clock reading at its arrival, the requests sent so far and
    the [_triggerEvent] calls made so far. *)
Record world : Type := World {
  this : auth;
  wire : list (reply * Z);
  clock : Z;
  sent : list request;
  events : list (string * Z)
}.

Definition set_this (w : world) (a : auth) : world :=
  World a (wire w) (clock w) (sent w) (events w).

Definition trigger (w : world) (eventName : string) : world :=
  World (this w) (wire w) (clock w) (sent w) (events w ++ [(eventName, clock w)]).

(** [None]: the fuel ran out. *)
Definition task (A : Type) : Type := option (world * completion A).

(** [_handleApiError(error, message)]: the value it throws. *)
Definition _handleApiError (error : exn) (message : string) : exn :=
  match error with
  | AxiosError (Some _) m (Some body) =>
      Error (message +:+ ": " +:+ match m with Some m => m | None => body end)
  | AxiosError _ _ _ =>
      Error (message +:+ ": 서버로부터 응답이 없습니다. 네트워크 연결을 확인하세요.")
  | _ => Error (message +:+ ": " +:+ exn_message error)
  end.

(** [_setTokenExpiry(expiresIn)] *)
Definition _setTokenExpiry (now : Z) (expiresIn : option Z) (a : auth) : auth :=
  match expiresIn with
  | Some n =>
      if n =? 0 then a
      else Auth (accessToken a) (refreshToken a) (autoRefreshToken a)
             (Some (now + n * 1000 - 10 * 1000)) (tokenRefreshThresholdMs a)
  | None => a
  end.

(** [refreshAccessToken()], over the HTTP client [post] it goes through. *)
Definition refreshAccessToken (post : request → world → task data) (w : world)
  : task data :=
  if negb (truthy (refreshToken (this w))) then
    Some (w, Throws (Error "refreshToken이 설정되어 있지 않습니다."))
  else
    match post (Request "/auth/v1/token" None) w with
    | None => None
    | Some (w', Returns d) =>
        let a := this w' in
        let a' := Auth (data_accessToken d) (data_refreshToken d)
                    (autoRefreshToken a) (tokenExpiry a) (tokenRefreshThresholdMs a) in
        Some (set_this w' (_setTokenExpiry (clock w') (data_expiresIn d) a'), Returns d)
    | Some (w', Throws error) =>
        Some (w', Throws (_handleApiError error "액세스 토큰 갱신 실패"))
    end.

(** [this.httpClient(config)]: the adapter sends the request and takes the
    next reply; a 2xx reply passes the first interceptor function, anything
    else goes to the second one, which may refresh and send the request
    again through this same client. *)
Fixpoint httpClient (fuel : nat) (config : request) (w : world) : task data :=
  match fuel with
  | O => None
  | S fuel' =>
      let '(r, w1) :=
        match wire w with
        | [] => (NoReply, World (this w) [] (clock w) (sent w ++ [config]) (events w))
        | (r, now) :: rest => (r, World (this w) rest now (sent w ++ [config]) (events w))
        end in
      match r with
      | Ok d => Some (w1, Returns d)
      | NoReply => Some (w1, Throws (AxiosError None None None))
      | Failed status m body =>
          let error := AxiosError (Some status) m body in
          if autoRefreshToken (this w1) && (status =? 401)
             && truthy (refreshToken (this w1)) then
            match refreshAccessToken (httpClient fuel') w1 with
            | None => None
            | Some (w2, Throws refreshError) =>
                Some (trigger w2 "tokenExpired", Throws refreshError)
            | Some (w2, Returns _) =>
                let w3 := trigger w2 "tokenRefresh" in
                httpClient fuel'
                  (Request (path config) (Some (accessToken (this w3)))) w3
            end
          else Some (w1, Throws error)
      end
  end.

(** [_ensureValidToken()] *)
Definition _ensureValidToken (fuel : nat) (w : world) : task unit :=
  if negb (truthy (accessToken (this w))) then
    Some (w, Throws (Error "Access Token이 설정되어 있지 않습니다. 먼저 발급받으세요."))
  else
    match tokenExpiry (this w) with
    | Some expiry =>
        if autoRefreshToken (this w) && negb (expiry =? 0)
           && truthy (refreshToken (this w))
           && (expiry <? clock w + tokenRefreshThresholdMs (this w)) then
          match refreshAccessToken (httpClient fuel) w with
          | None => None
          | Some (w', Returns _) => Some (w', Returns tt)
          | Some (w', Throws e) => Some (w', Throws e)
          end
        else Some (w, Returns tt)
    | None => Some (w, Returns tt)
    end.

(** [_getChatAccessToken(channelId)] *)
Definition _getChatAccessToken (fuel : nat) (channelId : string) (w : world)
  : task string :=
  match _ensureValidToken fuel w with
  | None => None
  | Some (w1, Throws e) => Some (w1, Throws e)
  | Some (w1, Returns _) =>
      match httpClient fuel
              (Request ("/open/v1/chats/access-token?channelId=" +:+ channelId)
                 (Some (accessToken (this w1)))) w1 with
      | None => None
      | Some (w2, Returns d) =>
          match data_content_accessToken d with
          | Some token =>
              if negb (String.eqb token "") then Some (w2, Returns token)
              else Some (w2, Throws (_handleApiError
                     (Error "채팅 접속 토큰을 찾을 수 없습니다.")
                     "채팅 접속 토큰 가져오기 실패"))
          | None =>
              Some (w2, Throws (_handleApiError
                     (Error "채팅 접속 토큰을 찾을 수 없습니다.")
                     "채팅 접속 토큰 가져오기 실패"))
          end
      | Some (w2, Throws error) =>
          Some (w2, Throws (_handleApiError error "채팅 접속 토큰 가져오기 실패"))
      end
  end.

(** One round of refusal: the server answers 401 to the call, then it
    accepts the refresh and returns new tokens. *)
Record round : Type := Round {
  refusal_message : option string;
  refusal_body : option string;
  refusal_time : Z;
  new_accessToken : option string;
  new_refreshToken : option string;
  new_expiresIn : option Z;
  refresh_time : Z
}.

Definition round_replies (rd : round) : list (reply * Z) :=
  [ (Failed 401 (refusal_message rd) (refusal_body rd), refusal_time rd);
    (Ok (TokenData (new_accessToken rd) (new_refreshToken rd) (new_expiresIn rd)),
     refresh_time rd) ].

Fixpoint rejections (rounds : list round) : list (reply * Z) :=
  match rounds with
  | [] => []
  | rd :: rest => round_replies rd ++ rejections rest
  end.

Definition usual_round (now : Z) : round :=
  Round (Some "Unauthorized") (Some "{}") now
        (Some "access") (Some "refresh") (Some 3600) now.

(** How many of the requests sent went to [p]. *)
Definition count_to (p : string) (requests : list request) : nat :=
  length (List.filter (λ r, String.eqb (path r) p) requests).

Definition sent_to (p : string) (w : world) : nat := count_to p (sent w).

(** A client constructed with both tokens and the default options. *)
Definition signed_in : world :=
  World (Auth (Some "access0") (Some "refresh0") true None (5 * 60 * 1000))
        [] 0 [] [].

Definition with_wire (w : world) (replies : list (reply * Z)) : world :=
  World (this w) replies (clock w) (sent w) (events w).

(** [GET /open/v1/users/me] with the client's bearer token. *)
Definition users_me : request := Request "/open/v1/users/me" (Some (Some "access0")).

(** The call is answered 401, the refresh succeeds, the retried call is
    answered 401 again, the second refresh succeeds, and the third send is
    answered 200. *)
Definition twice_unauthorized : world :=
  with_wire signed_in
    (rejections [usual_round 10; usual_round 15] ++ [(Ok (OtherData 0), 20)]).

End Rest.

(** ** 9. Realtime chat: [connectChat], [disconnectChat] and the socket
    callbacks *)

Module Chat.

(** [WebSocket.readyState] *)
Inductive ready_state : Type := CONNECTING | OPEN | CLOSING | CLOSED.

Definition is_OPEN (r : ready_state) : bool :=
  match r with OPEN => true | _ => false end.

Definition is_CONNECTING (r : ready_state) : bool :=
  match r with CONNECTING => true | _ => false end.

(** Who continues when the promise of a [disconnectChat] call resolves: the
    caller that got the promise [call], or the [connectChat] call that is
    suspended at [await this.disconnectChat()]. *)
Inductive awaiter : Type :=
| Caller (call : nat)
| ConnectChat (call : nat) (channelId : string).

(** The function stored in [socket.onclose]. *)
Inductive onclose_handler : Type :=
| OnCloseOfConnect                    (* assigned by [connectChat] *)
| OnCloseOfDisconnect (k : awaiter).  (* assigned by [disconnectChat] *)

(** A WebSocket object, with what the callbacks assigned by [connectChat]
    captured: [channelId], [chatAccessToken] and the [resolve]/[reject] pair
    of the promise [call]. *)
Record socket : Type := Socket {
  readyState : ready_state;
  onclose : onclose_handler;
  sock_channelId : string;
  sock_token : string;
  sock_call : nat
}.

Inductive promise : Type :=
| Pending
| Resolved
| Rejected (e : exn).

(** A [setTimeout] made by the close callback: it calls
    [connectChat(channelId)] after [delay] milliseconds. *)
Record timer : Type := Timer {
  delay : Z;
  timer_channelId : string;
  waiting : bool
}.

(** Frames written with [socket.send]. *)
Inductive frame : Type :=
| AUTH (token : string) (channelId : option string)
| PING.

(** Calls of [_triggerEvent] made by the chat code. *)
Inductive event : Type :=
| chatConnected (channelId : string)
| chatDisconnected (channelId : string) (code : Z) (reason : string)
| chatError (error : exn) (rawMessage : option string)
| chatInbound (eventName : string) (data : Frames.value).

(** The chat fields of [this]. *)
Record session : Type := Session {
  chatSocket : option nat;
  chatChannelId : option string;
  chatHeartbeatInterval : option nat;
  chatReconnectAttempts : Z;
  chatMaxReconnectAttempts : Z
}.

(** The client and its surroundings.  Sockets, intervals, timers and
    promises are numbered in the order of their creation. *)
Record world : Type := World {
  this : session;
  sockets : list socket;
  intervals : list bool;             (* [setInterval] handles (truthy): not yet cleared? *)
  timers : list timer;
  promises : list promise;           (* results of connectChat / disconnectChat calls *)
  fetching : gmap nat string;        (* calls suspended at [await this._getChatAccessToken] *)
  token_requests : list string;      (* every [_getChatAccessToken(channelId)] call made *)
  sent : list (nat * frame);
  emitted : list event
}.

Definition set_chatSocket (v : option nat) (w : world) : world :=
  let t := this w in
  World (Session v (chatChannelId t) (chatHeartbeatInterval t)
           (chatReconnectAttempts t) (chatMaxReconnectAttempts t))
    (sockets w) (intervals w) (timers w) (promises w) (fetching w)
    (token_requests w) (sent w) (emitted w).

Definition set_chatChannelId (v : option string) (w : world) : world :=
  let t := this w in
  World (Session (chatSocket t) v (chatHeartbeatInterval t)
           (chatReconnectAttempts t) (chatMaxReconnectAttempts t))
    (sockets w) (intervals w) (timers w) (promises w) (fetching w)
    (token_requests w) (sent w) (emitted w).

Definition set_chatHeartbeatInterval (v : option nat) (w : world) : world :=
  let t := this w in
  World (Session (chatSocket t) (chatChannelId t) v
           (chatReconnectAttempts t) (chatMaxReconnectAttempts t))
    (sockets w) (intervals w) (timers w) (promises w) (fetching w)
    (token_requests w) (sent w) (emitted w).

Definition set_chatReconnectAttempts (v : Z) (w : world) : world :=
  let t := this w in
  World (Session (chatSocket t) (chatChannelId t) (chatHeartbeatInterval t)
           v (chatMaxReconnectAttempts t))
    (sockets w) (intervals w) (timers w) (promises w) (fetching w)
    (token_requests w) (sent w) (emitted w).

Definition set_sockets (v : list socket) (w : world) : world :=
  World (this w) v (intervals w) (timers w) (promises w) (fetching w)
    (token_requests w) (sent w) (emitted w).

Definition set_intervals (v : list bool) (w : world) : world :=
  World (this w) (sockets w) v (timers w) (promises w) (fetching w)
    (token_requests w) (sent w) (emitted w).

Definition set_timers (v : list timer) (w : world) : world :=
  World (this w) (sockets w) (intervals w) v (promises w) (fetching w)
    (token_requests w) (sent w) (emitted w).

Definition set_promises (v : list promise) (w : world) : world :=
  World (this w) (sockets w) (intervals w) (timers w) v (fetching w)
    (token_requests w) (sent w) (emitted w).

Definition set_fetching (v : gmap nat string) (w : world) : world :=
  World (this w) (sockets w) (intervals w) (timers w) (promises w) v
    (token_requests w) (sent w) (emitted w).

Definition set_token_requests (v : list string) (w : world) : world :=
  World (this w) (sockets w) (intervals w) (timers w) (promises w) (fetching w)
    v (sent w) (emitted w).

Definition set_sent (v : list (nat * frame)) (w : world) : world :=
  World (this w) (sockets w) (intervals w) (timers w) (promises w) (fetching w)
    (token_requests w) v (emitted w).

Definition set_emitted (v : list event) (w : world) : world :=
  World (this w) (sockets w) (intervals w) (timers w) (promises w) (fetching w)
    (token_requests w) (sent w) v.

(** The chat part of the constructor. *)
Definition constructor : world :=
  World (Session None None None 0 5) [] [] [] [] ∅ [] [] [].

(** [this._triggerEvent(...)], as far as the chat code is concerned. *)
Definition _triggerEvent (e : event) (w : world) : world :=
  set_emitted (emitted w ++ [e]) w.

(** [resolve()] and [reject(e)]: a settled promise stays as it is. *)
Definition settle (call : nat) (r : promise) (w : world) : world :=
  match promises w !! call with
  | Some Pending => set_promises (<[call := r]> (promises w)) w
  | _ => w
  end.

(** Assignment to a property of the socket object [s]. *)
Definition modify_socket (s : nat) (f : socket → socket) (w : world) : world :=
  match sockets w !! s with
  | Some sk => set_sockets (<[s := f sk]> (sockets w)) w
  | None => w
  end.

Definition set_readyState (s : nat) (r : ready_state) (w : world) : world :=
  modify_socket s
    (λ sk, Socket r (onclose sk) (sock_channelId sk) (sock_token sk) (sock_call sk)) w.

Definition set_onclose (s : nat) (h : onclose_handler) (w : world) : world :=
  modify_socket s
    (λ sk, Socket (readyState sk) h (sock_channelId sk) (sock_token sk) (sock_call sk)) w.

(** [this.chatSocket.readyState === WebSocket.OPEN], false as well when
    [this.chatSocket] is null. *)
Definition chatSocket_open (w : world) : option nat :=
  match chatSocket (this w) with
  | Some s =>
      match sockets w !! s with
      | Some sk => if is_OPEN (readyState sk) then Some s else None
      | None => None
      end
  | None => None
  end.

(** [_stopChatHeartbeat()] *)
Definition _stopChatHeartbeat (w : world) : world :=
  match chatHeartbeatInterval (this w) with
  | Some i =>
      set_chatHeartbeatInterval None (set_intervals (<[i := false]> (intervals w)) w)
  | None => w
  end.

(** [_startChatHeartbeat()] *)
Definition _startChatHeartbeat (w : world) : world :=
  let w1 := _stopChatHeartbeat w in
  set_chatHeartbeatInterval (Some (length (intervals w1)))
    (set_intervals (intervals w1 ++ [true]) w1).

(** The callback of that interval. *)
Definition heartbeat (w : world) : world :=
  match chatSocket_open w with
  | Some s => set_sent (sent w ++ [(s, PING)]) w
  | None => w
  end.

(** [_cleanupChatConnection()] *)
Definition _cleanupChatConnection (w : world) : world :=
  set_chatReconnectAttempts 0 (_stopChatHeartbeat w).

(** [_sendChatAuthMessage(chatAccessToken)] *)
Definition _sendChatAuthMessage (chatAccessToken : string) (w : world) : world :=
  match chatSocket_open w with
  | Some s =>
      set_sent (sent w ++ [(s, AUTH chatAccessToken (chatChannelId (this w)))]) w
  | None => w
  end.

(** [connectChat] from [this.chatChannelId = channelId] up to the point where
    it waits for the chat token. *)
Definition connectChat_resumed (call : nat) (channelId : string) (w : world) : world :=
  let w1 := set_chatChannelId (Some channelId) w in
  set_fetching (<[call := channelId]> (fetching w1))
    (set_token_requests (token_requests w1 ++ [channelId]) w1).

(** The [resolve] of a [disconnectChat] promise and what runs because of it. *)
Definition resume (k : awaiter) (w : world) : world :=
  match k with
  | Caller call => settle call Resolved w
  | ConnectChat call channelId => connectChat_resumed call channelId w
  end.

(** [disconnectChat()], for the awaiter [k] of the promise it returns. *)
Definition disconnectChat (k : awaiter) (w : world) : world :=
  match chatSocket (this w) with
  | None => resume k w
  | Some s =>
      let w1 := _cleanupChatConnection w in
      match chatSocket_open w1 with
      | Some _ =>
          (* onclose is replaced, then [this.chatSocket.close()] *)
          set_readyState s CLOSING (set_onclose s (OnCloseOfDisconnect k) w1)
      | None => resume k (set_chatSocket None w1)
      end
  end.

(** [connectChat(channelId)] up to its first suspension; the promise it
    returns is the next one. *)
Definition connectChat (channelId : string) (w : world) : world :=
  let call := length (promises w) in
  let w1 := set_promises (promises w ++ [Pending]) w in
  if String.eqb channelId "" then
    settle call (Rejected (Error "채널 ID가 필요합니다.")) w1
  else
    match chatSocket (this w1) with
    | Some _ => disconnectChat (ConnectChat call channelId) w1
    | None => connectChat_resumed call channelId w1
    end.

(** [connectChat] after [await this._getChatAccessToken(channelId)]: [result]
    is the outcome of that call, [ws] tells whether [new WebSocket(url)]
    throws. *)
Definition connectChat_fetched (call : nat) (channelId : string)
    (result : completion string) (ws : completion unit) (w : world) : world :=
  match result with
  | Throws error =>
      settle call (Rejected (Rest._handleApiError error "채팅 연결 실패")) w
  | Returns chatAccessToken =>
      match ws with
      | Throws error => settle call (Rejected error) w
      | Returns _ =>
          set_chatSocket (Some (length (sockets w)))
            (set_sockets
               (sockets w ++ [Socket CONNECTING OnCloseOfConnect channelId
                                chatAccessToken call]) w)
      end
  end.

(** [this.chatSocket.onopen] *)
Definition onopen (sk : socket) (w : world) : world :=
  settle (sock_call sk) Resolved
    (_triggerEvent (chatConnected (sock_channelId sk))
       (_startChatHeartbeat (_sendChatAuthMessage (sock_token sk) w))).

(** The [onclose] that [connectChat] assigns: the delay of the timer is
    computed after the increment. *)
Definition onclose_of_connect (sk : socket) (code : Z) (reason : string)
    (w : world) : world :=
  let w1 := _triggerEvent (chatDisconnected (sock_channelId sk) code reason)
              (_cleanupChatConnection w) in
  if chatReconnectAttempts (this w1) <? chatMaxReconnectAttempts (this w1) then
    let w2 := set_chatReconnectAttempts (chatReconnectAttempts (this w1) + 1) w1 in
    set_timers
      (timers w2 ++ [Timer (1000 * 2 ^ chatReconnectAttempts (this w2))
                       (sock_channelId sk) true]) w2
  else w1.

(** The [onclose] that [disconnectChat] assigns. *)
Definition onclose_of_disconnect (k : awaiter) (w : world) : world :=
  resume k (set_chatSocket None w).

(** [this.chatSocket.onerror] *)
Definition onerror (sk : socket) (error : exn) (w : world) : world :=
  settle (sock_call sk) (Rejected error) (_triggerEvent (chatError error None) w).

(** [this.chatSocket.onmessage]: [parsed] is the outcome of
    [JSON.parse(event.data)]. *)
Definition onmessage (data : string) (parsed : completion Frames.value) (now : Z)
    (w : world) : world :=
  let channel :=
    match chatChannelId (this w) with
    | Some c => Frames.VStr c
    | None => Frames.VNull
    end in
  match parsed with
  | Throws error => _triggerEvent (chatError error (Some data)) w
  | Returns message =>
      match Frames._handleChatMessage channel now message with
      | Throws error => _triggerEvent (chatError error (Some data)) w
      | Returns (Some (eventName, d)) => _triggerEvent (chatInbound eventName d) w
      | Returns None => w
      end
  end.

(** What happens to the client, one task of the event loop at a time: a call
    from outside, a socket event, a timer, or the settling of the chat-token
    request.  A step runs the callback together with the continuations that
    become ready without waiting for the outside, so an [await] on a promise
    that is already resolved does not end the step. *)
Inductive input : Type :=
| CallConnectChat (channelId : string)
| CallDisconnectChat
| TokenFetched (call : nat) (result : completion string) (ws : completion unit)
| WsOpen (s : nat)
| WsClose (s : nat) (code : Z) (reason : string)
| WsError (s : nat) (error : exn)
| WsMessage (s : nat) (data : string) (parsed : completion Frames.value) (now : Z)
| TimeoutFires (t : nat)
| IntervalFires (i : nat).

Definition step (w : world) (i : input) : world :=
  match i with
  | CallConnectChat channelId => connectChat channelId w
  | CallDisconnectChat =>
      disconnectChat (Caller (length (promises w)))
        (set_promises (promises w ++ [Pending]) w)
  | TokenFetched call result ws =>
      match fetching w !! call with
      | Some channelId =>
          connectChat_fetched call channelId result ws
            (set_fetching (delete call (fetching w)) w)
      | None => w
      end
  | WsOpen s =>
      match sockets w !! s with
      | Some sk =>
          if is_CONNECTING (readyState sk)
          then onopen sk (set_readyState s OPEN w)
          else w
      | None => w
      end
  | WsClose s code reason =>
      match sockets w !! s with
      | Some sk =>
          let w1 := set_readyState s CLOSED w in
          match onclose sk with
          | OnCloseOfConnect => onclose_of_connect sk code reason w1
          | OnCloseOfDisconnect k => onclose_of_disconnect k w1
          end
      | None => w
      end
  | WsError s error =>
      match sockets w !! s with
      | Some sk => onerror sk error (set_readyState s CLOSED w)
      | None => w
      end
  | WsMessage s data parsed now =>
      match sockets w !! s with
      | Some _ => onmessage data parsed now w
      | None => w
      end
  | TimeoutFires t =>
      match timers w !! t with
      | Some tm =>
          if waiting tm then
            connectChat (timer_channelId tm)
              (set_timers (<[t := Timer (delay tm) (timer_channelId tm) false]>
                             (timers w)) w)
          else w
      | None => w
      end
  | IntervalFires i =>
      match intervals w !! i with
      | Some true => heartbeat w
      | _ => w
      end
  end.

Definition run (w : world) (inputs : list input) : world :=
  foldl step w inputs.

(** The close event that lets a teardown finish, when the socket is open. *)
Definition teardown (w : world) : list input :=
  match chatSocket_open w with
  | Some s => [WsClose s 1000 ""]
  | None => []
  end.

Definition count_chatDisconnected (w : world) : nat :=
  length (List.filter (λ e, match e with chatDisconnected _ _ _ => true | _ => false end)
            (emitted w)).

(** *** Scenarios *)

(** [connectChat("c1")] succeeds: token, socket 0, open. *)
Definition connected : world :=
  run constructor
    [CallConnectChat "c1"; TokenFetched 0 (Returns "token") (Returns tt); WsOpen 0].

(** The server closes socket [k]; the timer made for it fires; the new
    attempt gets its token and socket [k + 1], which opens. *)
Definition closure_and_reconnect (k : nat) : list input :=
  [WsClose k 1006 ""; TimeoutFires k;
   TokenFetched (S k) (Returns "token") (Returns tt); WsOpen (S k)].

(** Five closures in a row, each followed by the reconnect it schedules. *)
Definition five_closures : world :=
  run connected
    (closure_and_reconnect 0 ++ closure_and_reconnect 1 ++ closure_and_reconnect 2
     ++ closure_and_reconnect 3 ++ [WsClose 4 1006 ""]).

(** The fifth reconnect and one more closure. *)
Definition sixth_closure : world :=
  run five_closures
    [TimeoutFires 4; TokenFetched 5 (Returns "token") (Returns tt); WsOpen 5;
     WsClose 5 1006 ""].

(** The server closes the socket and a backoff timer is waiting. *)
Definition backoff_pending : world := run connected [WsClose 0 1006 ""].

(** The socket of the first [connectChat] fails before it opens: an error
    event, then the close event. *)
Definition open_failure : list input :=
  [CallConnectChat "c1"; TokenFetched 0 (Returns "token") (Returns tt);
   WsError 0 (WebSocketError 0); WsClose 0 1006 ""].

(** [connectChat("c1")] has its token and its socket 0, which has not opened
    yet. *)
Definition awaiting_open : world :=
  run constructor [CallConnectChat "c1"; TokenFetched 0 (Returns "token") (Returns tt)].

(** [disconnectChat()] while the backoff timer is waiting, then the timer
    fires and the token arrives. *)
Definition disconnected_during_backoff : world :=
  run backoff_pending [CallDisconnectChat].

Definition timer_after_disconnect : world :=
  run disconnected_during_backoff
    [TimeoutFires 0; TokenFetched 2 (Returns "token") (Returns tt)].

(** [connectChat("c2")] on the connected client, and the close event of the
    old socket. *)
Definition switched_channel : world :=
  run connected [CallConnectChat "c2"; WsClose 0 1000 ""].

(** [w'] is [w] after its session was torn down: no socket, and the channel
    id, the timers, the promises, the pending token requests and the emitted
    events are as before. *)
Definition torn_down (w w' : world) : Prop :=
  chatSocket (this w') = None
  ∧ chatChannelId (this w') = chatChannelId (this w)
  ∧ chatMaxReconnectAttempts (this w') = chatMaxReconnectAttempts (this w)
  ∧ timers w' = timers w
  ∧ promises w' = promises w
  ∧ fetching w' = fetching w
  ∧ token_requests w' = token_requests w
  ∧ emitted w' = emitted w
  ∧ length (sockets w') = length (sockets w).

End Chat.

(** ** Further notions about the dispatcher *)

Module Subscriptions.
Import Events.

(** The references held by an array of handlers. *)
Definition hrefs (arr : list handler) : list nat := href <$> arr.

(** [h] is a closure made by [once(name, _)]. *)
Definition once_for (name : string) (h : handler) : Prop :=
  match h with
  | OnceHandler _ n _ => n = name
  | UserFn _ _ _ => False
  end.

(** Every array of [reg'] is what is left of the array of [reg] after some
    removals. *)
Definition narrows (reg reg' : registry) : Prop :=
  ∀ m arr, reg !! m = Some arr →
    ∃ arr', reg' !! m = Some arr' ∧ arr' `sublist_of` arr.

(** [on(name, h)] for each [h] of [hs], in order. *)
Definition register_all (reg : registry) (name : string) (hs : list handler)
  : registry :=
  foldl (λ r h, after r (CallOn name h)) reg hs.

(** The references of the handlers a dispatch called, in order. *)
Definition called {D} (r : dispatch D) : list nat :=
  (λ c : handler * D, href c.1) <$> invoked r.

End Subscriptions.

(** ** Further notions about inbound frames *)

Module FrameKinds.
Import Frames.

(** The [case] labels of the switch that make an event. *)
Definition frame_types : list string :=
  ["CHAT"; "DONATION"; "SUBSCRIPTION"; "NOTICE"]%string.

(** The fields of each event that the source fills with [||]. *)
Definition defaulted (eventName : string) : list string :=
  if String.eqb eventName "chatMessage" then ["badges"; "timestamp"]%string
  else if String.eqb eventName "chatDonation" then
    ["currency"; "badges"; "timestamp"]%string
  else if String.eqb eventName "chatSubscription" then
    ["months"; "tier"; "tierName"; "badges"; "timestamp"]%string
  else if String.eqb eventName "chatNotice" then ["noticeType"; "timestamp"]%string
  else [].

(** [{"type":"DONATION","userId":"u1","amount":1000}] *)
Definition donation_frame : list (string * value) :=
  [("type", VStr "DONATION"); ("userId", VStr "u1"); ("amount", VNum 1000)].

(** [{"type":"NOTICE","content":"hello"}] *)
Definition notice_frame : list (string * value) :=
  [("type", VStr "NOTICE"); ("content", VStr "hello")].

End FrameKinds.

(** ** 1. Authentication methods and two of the REST wrappers *)

Module Auth.
Import Rest.


(** [revokeToken(token, tokenTypeHint)] *)
Definition revokeToken (fuel : nat) (token : option string) (tokenTypeHint : string)
    (w : world) : task data :=
  match httpClient fuel (Request "/auth/v1/token/revoke" None) w with
  | None => None
  | Some (w', Returns d) =>
      let a := this w' in
      let a' :=
        if String.eqb tokenTypeHint "access_token"
           && bool_decide (token = accessToken a) then
          Auth (Some "") (refreshToken a) (autoRefreshToken a) None
            (tokenRefreshThresholdMs a)
        else if String.eqb tokenTypeHint "refresh_token"
                && bool_decide (token = refreshToken a) then
          Auth (accessToken a) (Some "") (autoRefreshToken a) (tokenExpiry a)
            (tokenRefreshThresholdMs a)
        else a in
      Some (set_this w' a', Returns d)
  | Some (w', Throws error) =>
      Some (w', Throws (_handleApiError error "토큰 폐기 실패"))
  end.

(** [followChannel(channelId)]: the token is checked before the argument. *)
Definition followChannel (fuel : nat) (channelId : string) (w : world) : task data :=
  match _ensureValidToken fuel w with
  | None => None
  | Some (w1, Throws e) => Some (w1, Throws e)
  | Some (w1, Returns _) =>
      if String.eqb channelId "" then
        Some (w1, Throws (Error "채널 ID가 필요합니다."))
      else
        match httpClient fuel
                (Request ("/open/v1/channels/" +:+ channelId +:+ "/follow")
                   (Some (accessToken (this w1)))) w1 with
        | None => None
        | Some (w2, Returns d) => Some (w2, Returns d)
        | Some (w2, Throws error) =>
            Some (w2, Throws (_handleApiError error "채널 팔로우 실패"))
        end
  end.

(** The token endpoint. *)
Definition token_request : request := Request "/auth/v1/token" None.

(** What the caller gets when the token endpoint answers 401 [n] times and
    then not at all: the network error, wrapped once per refresh. *)
Fixpoint refresh_failure (n : nat) : exn :=
  match n with
  | O => AxiosError None None None
  | S k => _handleApiError (refresh_failure k) "액세스 토큰 갱신 실패"
  end.

(** The access token is due for a refresh at the clock of [w]. *)
Definition due (w : world) : Prop :=
  autoRefreshToken (this w) = true
  ∧ truthy (accessToken (this w)) = true
  ∧ truthy (refreshToken (this w)) = true
  ∧ ∃ expiry, tokenExpiry (this w) = Some expiry
              ∧ expiry ≠ 0 ∧ expiry < clock w + tokenRefreshThresholdMs (this w).

(** The errors made before any request. *)
Definition no_access_token : exn :=
  Error "Access Token이 설정되어 있지 않습니다. 먼저 발급받으세요.".

Definition no_chat_token : exn :=
  _handleApiError (Error "채팅 접속 토큰을 찾을 수 없습니다.")
    "채팅 접속 토큰 가져오기 실패".

Definition chat_token_request (channelId : string) (bearer : option string) : request :=
  Request ("/open/v1/chats/access-token?channelId=" +:+ channelId) (Some bearer).

(** The tokens after a token reply that arrived at [now]. *)
Definition refreshed_auth (now : Z) (a r : option string) (x : option Z) (old : auth)
  : auth :=
  _setTokenExpiry now x
    (Auth a r (autoRefreshToken old) (tokenExpiry old) (tokenRefreshThresholdMs old)).

(** What [_getChatAccessToken] makes of a 2xx body. *)
Definition chat_token_of (d : data) : completion string :=
  match data_content_accessToken d with
  | Some token => if String.eqb token "" then Throws no_chat_token else Returns token
  | None => Throws no_chat_token
  end.

Definition revoke_request : request := Request "/auth/v1/token/revoke" None.

(** A client whose token expires in one minute. *)
Definition expiring : world :=
  World (Auth (Some "access0") (Some "refresh0") true (Some 1060000) (5 * 60 * 1000))
        [] 1000000 [] [].

End Auth.

(** ** The worlds the chat session can get into *)

Module Session.
Import Chat.

(** Every world that some sequence of inputs leads to from the constructor. *)
Inductive reachable : world → Prop :=
| reach_constructor : reachable constructor
| reach_step w i : reachable w → reachable (step w i).

(** The channel that a suspended [connectChat] will use, if [k] is one. *)
Definition awaiter_ok (k : awaiter) : Prop :=
  match k with
  | Caller _ => True
  | ConnectChat _ channelId => channelId ≠ ""
  end.

Definition socket_ok (sk : socket) : Prop :=
  sock_channelId sk ≠ ""
  ∧ match onclose sk with
    | OnCloseOfConnect => True
    | OnCloseOfDisconnect k => awaiter_ok k
    end.

Definition timer_ok (tm : timer) : Prop :=
  delay tm = 2000 ∧ timer_channelId tm ≠ "".

(** What holds in every reachable world. *)
Definition invariant (w : world) : Prop :=
  chatMaxReconnectAttempts (this w) = 5
  ∧ (chatReconnectAttempts (this w) = 0 ∨ chatReconnectAttempts (this w) = 1)
  ∧ Forall timer_ok (timers w)
  ∧ Forall socket_ok (sockets w)
  ∧ map_Forall (λ _ channelId, channelId ≠ "") (fetching w)
  ∧ ∀ i, intervals w !! i = Some true → chatHeartbeatInterval (this w) = Some i.

End Session.

(** * Properties of the event dispatcher *)

Module EventsFacts.
Import Events.

(** *** Facts about the registry *)

Lemma get_own (reg : registry) (n : string) (arr : list handler) :
  reg !! n = Some arr → get reg n = Handlers arr.
Proof. unfold get. by intros ->. Qed.

Lemma get_Handlers (reg : registry) (n : string) (arr : list handler) :
  get reg n = Handlers arr → reg !! n = Some arr.
Proof.
  unfold get. destruct (reg !! n); [congruence|].
  by case_bool_decide.
Qed.

Lemma length_delete_le {A} (l : list A) (i : nat) :
  (length (delete i l) ≤ length l)%nat.
Proof.
  revert i. induction l as [|x l IH]; intros [|i]; simpl; try lia.
  specialize (IH i). lia.
Qed.

Lemma indexOf_lt (arr : list handler) (h : handler) (i : nat) :
  indexOf arr h = Some i → (i < length arr)%nat.
Proof.
  revert i. induction arr as [|x rest IH]; intros i; simpl; [done|].
  destruct (href x =? href h)%nat.
  - intros [= <-]. lia.
  - destruct (indexOf rest h) as [j|]; simpl; [|done].
    intros [= <-]. specialize (IH j eq_refl). lia.
Qed.

Lemma off_dom (reg reg' : registry) (n : string) (h : handler) :
  off reg n h = Returns reg' → dom reg' = dom reg.
Proof.
  unfold off. destruct (get reg n) as [arr| |] eqn:Hg; [|done|by intros [= <-]].
  apply get_Handlers in Hg.
  destruct (indexOf arr h); intros [= <-]; [|done].
  rewrite dom_insert_L. assert (n ∈ dom reg) by (by eapply elem_of_dom_2).
  apply set_eq. intros x. rewrite elem_of_union, elem_of_singleton.
  split; [by intros [->|?]|by right].
Qed.

Lemma off_length (reg reg' : registry) (n m : string) (h : handler) (arr : list handler) :
  off reg n h = Returns reg' → reg !! m = Some arr →
  ∃ arr', reg' !! m = Some arr' ∧ (length arr' ≤ length arr)%nat.
Proof.
  unfold off. destruct (get reg n) as [a| |] eqn:Hg; [|done|intros [= <-]; eauto].
  apply get_Handlers in Hg.
  destruct (indexOf a h) as [i|]; intros [= <-] Hm; [|eauto].
  destruct (decide (n = m)) as [->|Hne].
  - rewrite lookup_insert_eq. eexists; split; [done|].
    assert (a = arr) as -> by congruence.
    apply length_delete_le.
  - rewrite lookup_insert_ne by done. eauto.
Qed.

Lemma shrinks_refl (reg : registry) : shrinks reg reg.
Proof. split; [done|]. intros m arr Hm. eauto. Qed.

Lemma shrinks_trans (r1 r2 r3 : registry) :
  shrinks r1 r2 → shrinks r2 r3 → shrinks r1 r3.
Proof.
  intros [Hd1 Hl1] [Hd2 Hl2]. split; [congruence|].
  intros m arr Hm. destruct (Hl1 _ _ Hm) as (a2 & Hm2 & Hle2).
  destruct (Hl2 _ _ Hm2) as (a3 & Hm3 & Hle3). exists a3. split; [done|lia].
Qed.

Lemma off_shrinks (reg reg' : registry) (n : string) (h : handler) :
  off reg n h = Returns reg' → shrinks reg reg'.
Proof.
  intros Hoff. split; [by eapply off_dom|].
  intros m arr Hm. by eapply off_length.
Qed.

Lemma run_body_shrinks (body : list (string * handler)) (reg : registry) :
  shrinks reg (run_body body reg).1.
Proof.
  revert reg. induction body as [|[n h] rest IH]; intros reg; simpl.
  - apply shrinks_refl.
  - destruct (off reg n h) as [reg'|e] eqn:Hoff; simpl.
    + eapply shrinks_trans; [by eapply off_shrinks|apply IH].
    + apply shrinks_refl.
Qed.

Lemma call_shrinks (h : handler) (reg : registry) :
  shrinks reg (call h reg).1.
Proof.
  revert reg. induction h as [r body raises|r n inner IH]; intros reg; simpl.
  - pose proof (run_body_shrinks body reg) as Hb.
    destruct (run_body body reg) as [reg' [u|e]]; exact Hb.
  - destruct (off reg n (OnceHandler r n inner)) as [reg'|e] eqn:Hoff; simpl.
    + eapply shrinks_trans; [by eapply off_shrinks|apply IH].
    + apply shrinks_refl.
Qed.

(** The loop ends: the index grows and the array never does. *)
Lemma for_of_terminates {D} (fuel : nat) (n : string) (data : D) (i : nat)
    (st : dispatch D) (arr : list handler) :
  handlers_now st !! n = Some arr →
  (length arr - i < fuel)%nat →
  ∃ r, for_of fuel n data i st = Some r ∧ shrinks (handlers_now st) (handlers_now r).
Proof.
  revert i st arr. induction fuel as [|fuel IH]; intros i st arr Hn Hlt; [lia|].
  simpl. rewrite Hn. destruct (arr !! i) as [h|] eqn:Hi.
  - pose proof (call_shrinks h (handlers_now st)) as Hs.
    destruct (call h (handlers_now st)) as [reg' c]; simpl in Hs.
    destruct (proj2 Hs _ _ Hn) as (arr' & Hn' & Hle).
    apply lookup_lt_Some in Hi.
    edestruct (IH (S i) (Dispatch reg' (invoked st ++ [(h, data)])
                 match c with
                 | Returns _ => console_error st
                 | Throws e => console_error st ++ [(n, e)]
                 end) arr') as (r & Hr & Hsr); [done|lia|].
    exists r. split; [done|]. eapply shrinks_trans; [exact Hs|exact Hsr].
  - exists st. split; [done|apply shrinks_refl].
Qed.

Lemma _triggerEvent_returns {D} (reg : registry) (n : string) (data : D)
    (arr : list handler) :
  reg !! n = Some arr →
  ∃ r, _triggerEvent reg n data = Some (Returns r) ∧ shrinks reg (handlers_now r).
Proof.
  intros Hn. unfold _triggerEvent. rewrite (get_own _ _ _ Hn).
  destruct (for_of_terminates (S (length arr)) n data 0 (Dispatch reg [] []) arr)
    as (r & Hr & Hs); [done|lia|].
  exists r. by rewrite Hr.
Qed.

(** Subscribers that do not touch the registry are all called, in order. *)
Lemma for_of_plain {D} (fuel : nat) (n : string) (data : D) (i : nat)
    (st : dispatch D) (arr : list handler) :
  handlers_now st !! n = Some arr →
  Forall plain (drop i arr) →
  (length arr - i < fuel)%nat →
  for_of fuel n data i st =
    Some (Dispatch (handlers_now st)
            (invoked st ++ ((λ h, (h, data)) <$> drop i arr))
            (console_error st ++ omap (raised n) (drop i arr))).
Proof.
  revert i st. induction fuel as [|fuel IH]; intros i st Hn Hpl Hlt; [lia|].
  simpl. rewrite Hn. destruct (arr !! i) as [h|] eqn:Hi.
  - rewrite (drop_S _ _ _ Hi) in *. inversion Hpl as [|? ? Hh Hrest]; subst.
    apply lookup_lt_Some in Hi.
    destruct h as [r [|? ?] raises|]; try done. simpl.
    rewrite (IH (S i)); simpl; [|done|done|lia].
    f_equal. destruct raises as [e|]; simpl; by rewrite <- !app_assoc.
  - apply lookup_ge_None in Hi. rewrite drop_ge by done. simpl.
    rewrite !app_nil_r. by destruct st.
Qed.




Lemma event_names_not_inherited (n : string) :
  n ∈ event_names → n ∉ Object_prototype.
Proof.
  unfold event_names, Object_prototype. rewrite !elem_of_cons, !elem_of_nil.
  intros Hn Hp.
  destruct Hn as [->|[->|[->|[->|[->|[->|[->|[->|[->|[]]]]]]]]]];
    repeat (destruct Hp as [Hp|Hp]; [discriminate Hp|]); done.
Qed.

(** *** Throwing does not change who is called *)








(** *** The claims about the dispatcher *)





(** C7: with [once('chatMessage', A)] followed by [on('chatMessage', B)], the
    array holds the once-wrapper of A and then B when the dispatch starts,
    but the dispatch calls only the wrapper: it removes itself from the live
    array, B moves to index 0, and the iterator goes on at index 1. *)
Theorem _triggerEvent_skips_after_once :
  once_then_on !! "chatMessage"
    = Some [OnceHandler 3 "chatMessage" subscriberA; subscriberB]
  ∧ ∃ r, _triggerEvent once_then_on "chatMessage" 0%nat = Some (Returns r)
       ∧ invoked r = [(OnceHandler 3 "chatMessage" subscriberA, 0%nat)]
       ∧ handlers_now r !! "chatMessage" = Some [subscriberB].
Proof.
  split; [by vm_compute|].
  eexists. split; [by vm_compute|]. split; by vm_compute.
Qed.

End EventsFacts.

(** * Properties of the frame classification *)

Module FramesFacts.
Import Frames.

Lemma js_or_undefined (d : value) : js_or VUndefined d = d.
Proof. reflexivity. Qed.

(** C6, as the code has it: a CHAT frame without [badges] and [timestamp]
    gives a [chatMessage] event whose [badges] is the empty array, whose
    [timestamp] is the receipt time and whose [message] is the frame's
    [content]; a SUBSCRIPTION frame without [months], [tier] and [tierName]
    gives a [chatSubscription] event with [months] 1, [tier] 1 and the
    [tierName] of the source, which is a Korean string and not "basic". *)
Theorem _handleChatMessage_defaults (chatChannelId : value) (now : Z)
    (chat sub : list (string * value)) :
  prop chat "type" = VStr "CHAT" →
  prop chat "badges" = VUndefined →
  prop chat "timestamp" = VUndefined →
  prop sub "type" = VStr "SUBSCRIPTION" →
  prop sub "months" = VUndefined →
  prop sub "tier" = VUndefined →
  prop sub "tierName" = VUndefined →
  let c := _handleChatMessage chatChannelId now (VObj chat) in
  let s := _handleChatMessage chatChannelId now (VObj sub) in
  (emitted_name c = Some "chatMessage"
   ∧ emitted_field c "badges" = Some (VArr [])
   ∧ emitted_field c "timestamp" = Some (VNum now)
   ∧ emitted_field c "message" = Some (prop chat "content"))
  ∧ (emitted_name s = Some "chatSubscription"
     ∧ emitted_field s "months" = Some (VNum 1)
     ∧ emitted_field s "tier" = Some (VNum 1)
     ∧ emitted_field s "tierName" = Some (VStr "기본 구독")).
Proof.
  intros Hc Hb Ht Hs Hm Hti Htn. unfold _handleChatMessage, member.
  rewrite Hc, Hs. cbv zeta. rewrite Hb, Ht, Hm, Hti, Htn.
  rewrite !js_or_undefined. repeat split; reflexivity.
Qed.

Lemma _handleChatMessage_defaults_witness :
  let c := _handleChatMessage (VStr "c1") 1700000000000 chat_frame in
  let s := _handleChatMessage (VStr "c1") 1700000000000 subscription_frame in
  (emitted_name c = Some "chatMessage"
   ∧ emitted_field c "badges" = Some (VArr [])
   ∧ emitted_field c "timestamp" = Some (VNum 1700000000000)
   ∧ emitted_field c "message" = Some (VStr "hi"))
  ∧ (emitted_name s = Some "chatSubscription"
     ∧ emitted_field s "months" = Some (VNum 1)
     ∧ emitted_field s "tier" = Some (VNum 1)
     ∧ emitted_field s "tierName" = Some (VStr "기본 구독")).
Proof.
  apply (_handleChatMessage_defaults (VStr "c1") 1700000000000
           [("type", VStr "CHAT"); ("userId", VStr "u1"); ("nickname", VStr "n");
            ("content", VStr "hi")]
           [("type", VStr "SUBSCRIPTION"); ("userId", VStr "u1");
            ("nickname", VStr "n"); ("content", VStr "hi")]);
    reflexivity.
Defined.

(** C6 as it is written fails: the default [tierName] is not "basic". *)
Lemma subscription_tierName_is_not_basic :
  ¬ (emitted_field (_handleChatMessage (VStr "c1") 1700000000000 subscription_frame)
       "tierName" = Some (VStr "basic")).
Proof. intros H. vm_compute in H. discriminate H. Qed.

End FramesFacts.

(** * Properties of the token-refresh interceptor *)

Module RestFacts.
Import Rest.

Lemma count_to_snoc (p : string) (l : list request) (r : request) :
  count_to p (l ++ [r])
  = (count_to p l + (if String.eqb (path r) p then 1 else 0))%nat.
Proof.
  unfold count_to. rewrite List.filter_app, length_app. simpl.
  by destruct (String.eqb (path r) p).
Qed.

(** One round: a 401, the refresh it causes, and the request on its way
    again with the new token. *)
Lemma httpClient_round (fuel : nat) (w : world) (config : request) (rd : round)
    (replies : list (reply * Z)) :
  autoRefreshToken (this w) = true →
  truthy (refreshToken (this w)) = true →
  wire w = round_replies rd ++ replies →
  httpClient (S (S fuel)) config w =
  httpClient (S fuel) (Request (path config) (Some (new_accessToken rd)))
    (World (_setTokenExpiry (refresh_time rd) (new_expiresIn rd)
              (Auth (new_accessToken rd) (new_refreshToken rd) true
                 (tokenExpiry (this w)) (tokenRefreshThresholdMs (this w))))
       replies (refresh_time rd)
       ((sent w ++ [config]) ++ [Request "/auth/v1/token" None])
       (events w ++ [("tokenRefresh", refresh_time rd)])).
Proof.
  destruct w as [[a r auto ex th] wi cl se ev]. destruct rd as [m b t1 a' r' x t2].
  simpl. intros -> Href ->.
  destruct r as [[|c s]|]; try discriminate Href.
  destruct x as [x|]; [destruct (x =? 0) eqn:Hx|];
    unfold httpClient at 1; simpl; unfold refreshAccessToken; simpl;
    rewrite ?Hx; reflexivity.
Qed.

Lemma _setTokenExpiry_frame (now : Z) (x : option Z) (a : auth) :
  autoRefreshToken (_setTokenExpiry now x a) = autoRefreshToken a
  ∧ refreshToken (_setTokenExpiry now x a) = refreshToken a
  ∧ accessToken (_setTokenExpiry now x a) = accessToken a.
Proof. unfold _setTokenExpiry. destruct x as [n|]; [destruct (n =? 0)|]; done. Qed.

Lemma httpClient_rounds (rounds : list round) (fuel : nat) (w : world)
    (config : request) (t : Z) (d : data) (rest : list (reply * Z)) :
  (length rounds < fuel)%nat →
  autoRefreshToken (this w) = true →
  truthy (refreshToken (this w)) = true →
  Forall (λ rd, truthy (new_refreshToken rd) = true) rounds →
  path config ≠ "/auth/v1/token" →
  wire w = rejections rounds ++ (Ok d, t) :: rest →
  ∃ w', httpClient fuel config w = Some (w', Returns d)
        ∧ wire w' = rest
        ∧ sent_to (path config) w' = (sent_to (path config) w + length rounds + 1)%nat
        ∧ sent_to "/auth/v1/token" w' = (sent_to "/auth/v1/token" w + length rounds)%nat
        ∧ events w' = events w ++ ((λ rd, ("tokenRefresh", refresh_time rd)) <$> rounds).
Proof.
  revert fuel w config.
  induction rounds as [|rd rounds IH]; intros fuel w config Hfuel Hauto Href Hnew Hpath Hwire.
  - destruct fuel as [|fuel]; [simpl in Hfuel; lia|]. simpl in Hwire. cbn [httpClient].
    rewrite Hwire. eexists. split; [reflexivity|]. split; [reflexivity|].
    unfold sent_to. cbn [sent events]. rewrite !count_to_snoc.
    rewrite String.eqb_refl. apply String.eqb_neq in Hpath. rewrite Hpath.
    cbn [fmap list_fmap length]. rewrite app_nil_r. repeat split; lia.
  - destruct fuel as [|[|fuel]]; [simpl in Hfuel; lia..|].
    cbn [rejections] in Hwire. rewrite <- app_assoc in Hwire.
    rewrite (httpClient_round _ _ _ rd (rejections rounds ++ (Ok d, t) :: rest))
      by done.
    inversion Hnew as [|? ? Hrd Hnew']; subst.
    destruct (_setTokenExpiry_frame (refresh_time rd) (new_expiresIn rd)
                (Auth (new_accessToken rd) (new_refreshToken rd) true
                   (tokenExpiry (this w)) (tokenRefreshThresholdMs (this w))))
      as (Ha & Hr & _).
    match goal with
    | |- ∃ w', httpClient ?f ?c ?w0 = _ ∧ _ =>
        destruct (IH f w0 c) as (w' & Hrun & Hw & Hs1 & Hs2 & Hev);
          [simpl in Hfuel; lia|cbn [this]; by rewrite Ha|cbn [this]; by rewrite Hr
          |done|exact Hpath|done|]
    end.
    exists w'. split; [exact Hrun|]. split; [done|].
    cbn [path] in Hs1. rewrite Hs1, Hs2, Hev. unfold sent_to. cbn [sent events].
    rewrite !count_to_snoc. cbn [path].
    pose proof Hpath as Hp1. apply String.eqb_neq in Hp1.
    assert (String.eqb "/auth/v1/token" (path config) = false) as Hp2.
    { apply String.eqb_neq. congruence. }
    rewrite !String.eqb_refl, ?Hp1, ?Hp2.
    rewrite <- app_assoc. rewrite fmap_cons. cbn [app length].
    repeat split; lia.
Qed.

(** C3, as the code has it: a request answered 401 while auto-refresh is on
    and a refresh token is set is sent again after a token refresh, through
    the same client and so through the same interceptor.  Nothing counts the
    retries: when the call is answered 401 in every one of [rounds], each
    time followed by a successful refresh that returns a refresh token, it is
    sent once more than there are rounds, the token endpoint is called once
    per round, [tokenRefresh] is emitted once per round, and the caller gets
    the reply that comes after the last round. *)
Theorem httpClient_retries_every_401 (rounds : list round) (fuel : nat) (w : world)
    (config : request) (t : Z) (d : data) (rest : list (reply * Z)) :
  (length rounds < fuel)%nat →
  autoRefreshToken (this w) = true →
  truthy (refreshToken (this w)) = true →
  Forall (λ rd, truthy (new_refreshToken rd) = true) rounds →
  path config ≠ "/auth/v1/token" →
  wire w = rejections rounds ++ (Ok d, t) :: rest →
  ∃ w', httpClient fuel config w = Some (w', Returns d)
        ∧ wire w' = rest
        ∧ sent_to (path config) w' = (sent_to (path config) w + length rounds + 1)%nat
        ∧ sent_to "/auth/v1/token" w' = (sent_to "/auth/v1/token" w + length rounds)%nat
        ∧ events w' = events w ++ ((λ rd, ("tokenRefresh", refresh_time rd)) <$> rounds).
Proof. apply httpClient_rounds. Qed.

Lemma httpClient_retries_every_401_witness :
  ∃ w', httpClient 3 users_me twice_unauthorized = Some (w', Returns (OtherData 0))
        ∧ wire w' = []
        ∧ sent_to (path users_me) w'
          = (sent_to (path users_me) twice_unauthorized + 2 + 1)%nat
        ∧ sent_to "/auth/v1/token" w'
          = (sent_to "/auth/v1/token" twice_unauthorized + 2)%nat
        ∧ events w' = events twice_unauthorized
                      ++ [("tokenRefresh", 10); ("tokenRefresh", 15)].
Proof.
  apply (httpClient_retries_every_401 [usual_round 10; usual_round 15] 3
           twice_unauthorized users_me 20 (OtherData 0) []).
  - simpl. lia.
  - reflexivity.
  - reflexivity.
  - repeat constructor.
  - discriminate.
  - reflexivity.
Defined.

(** C3 as it is written fails: when the retried call is answered 401 again,
    the caller does not get that failure, with any amount of fuel. *)
Lemma second_401_is_not_surfaced :
  ¬ (∃ fuel w' e, httpClient fuel users_me twice_unauthorized = Some (w', Throws e)).
Proof.
  intros (fuel & w' & e & Hrun).
  destruct (decide (2 < fuel)%nat) as [Hlt|Hge].
  - destruct (httpClient_rounds [usual_round 10; usual_round 15] fuel
                twice_unauthorized users_me 20 (OtherData 0) []) as (w'' & Hok & _);
      [simpl; lia|reflexivity|reflexivity|repeat constructor|discriminate
      |reflexivity|].
    congruence.
  - destruct fuel as [|[|[|fuel]]]; [discriminate Hrun..|lia].
Qed.

End RestFacts.

(** * Properties of the chat session *)

Module ChatFacts.
Import Chat.

(** Open a world into its fields. *)
Ltac open_world w :=
  destruct w as [[?cs ?cc ?hb ?ra ?mx] ?sks ?ivs ?tms ?prs ?fe ?trs ?se ?em].

(** *** What the helpers leave alone *)

Lemma _cleanupChatConnection_spec (w : world) :
  let w' := _cleanupChatConnection w in
  chatReconnectAttempts (this w') = 0
  ∧ chatHeartbeatInterval (this w') = None
  ∧ chatSocket (this w') = chatSocket (this w)
  ∧ chatChannelId (this w') = chatChannelId (this w)
  ∧ chatMaxReconnectAttempts (this w') = chatMaxReconnectAttempts (this w)
  ∧ sockets w' = sockets w ∧ timers w' = timers w ∧ promises w' = promises w
  ∧ fetching w' = fetching w ∧ token_requests w' = token_requests w
  ∧ sent w' = sent w ∧ emitted w' = emitted w
  ∧ length (intervals w') = length (intervals w)
  ∧ ∀ i, chatHeartbeatInterval (this w) = Some i → (i < length (intervals w))%nat →
         intervals w' !! i = Some false.
Proof.
  open_world w. unfold _cleanupChatConnection, _stopChatHeartbeat. simpl.
  destruct hb as [i|]; simpl; repeat split; try done.
  - by rewrite length_insert.
  - intros j [= <-] Hlt. by apply list_lookup_insert_eq.
Qed.

Lemma settle_pending (call : nat) (r : promise) (w : world) :
  promises w !! call = Some Pending →
  promises (settle call r w) !! call = Some r.
Proof.
  intros Hp. unfold settle. rewrite Hp. open_world w. simpl in *.
  apply list_lookup_insert_eq. by eapply lookup_lt_Some.
Qed.

Lemma settle_frame (call : nat) (r : promise) (w : world) :
  this (settle call r w) = this w ∧ sockets (settle call r w) = sockets w
  ∧ timers (settle call r w) = timers w ∧ emitted (settle call r w) = emitted w
  ∧ token_requests (settle call r w) = token_requests w
  ∧ fetching (settle call r w) = fetching w.
Proof.
  unfold settle. destruct (promises w !! call) as [[| |]|]; by open_world w.
Qed.

(** The close callback of [connectChat] first cleans up, and the cleanup
    puts the counter back to 0: the timer it makes is always a 2-second one. *)
Lemma onclose_of_connect_spec (sk : socket) (code : Z) (reason : string) (w : world) :
  0 < chatMaxReconnectAttempts (this w) →
  let w' := onclose_of_connect sk code reason w in
  timers w' = timers w ++ [Timer 2000 (sock_channelId sk) true]
  ∧ chatReconnectAttempts (this w') = 1
  ∧ chatHeartbeatInterval (this w') = None
  ∧ emitted w' = emitted w ++ [chatDisconnected (sock_channelId sk) code reason]
  ∧ promises w' = promises w.
Proof.
  intros Hmax. open_world w. simpl in Hmax.
  unfold onclose_of_connect, _triggerEvent, _cleanupChatConnection, _stopChatHeartbeat.
  destruct hb as [i|]; simpl; apply Z.ltb_lt in Hmax; rewrite Hmax; simpl; done.
Qed.

Lemma modify_socket_is_set_sockets (s : nat) (f : socket → socket) (w : world) :
  ∃ l, modify_socket s f w = set_sockets l w ∧ length l = length (sockets w).
Proof.
  unfold modify_socket. destruct (sockets w !! s) as [sk|].
  - eexists. split; [done|]. by rewrite length_insert.
  - exists (sockets w). split; [by open_world w|done].
Qed.

Lemma modify_socket_lookup (s : nat) (f : socket → socket) (w : world) (sk : socket) :
  sockets w !! s = Some sk →
  sockets (modify_socket s f w) !! s = Some (f sk).
Proof.
  intros Hs. unfold modify_socket. rewrite Hs. open_world w. simpl in *.
  apply list_lookup_insert_eq. by eapply lookup_lt_Some.
Qed.

Lemma set_readyState_frame (s : nat) (r : ready_state) (w : world) :
  this (set_readyState s r w) = this w ∧ timers (set_readyState s r w) = timers w
  ∧ promises (set_readyState s r w) = promises w
  ∧ emitted (set_readyState s r w) = emitted w
  ∧ token_requests (set_readyState s r w) = token_requests w
  ∧ fetching (set_readyState s r w) = fetching w
  ∧ intervals (set_readyState s r w) = intervals w
  ∧ length (sockets (set_readyState s r w)) = length (sockets w).
Proof.
  unfold set_readyState.
  destruct (modify_socket_is_set_sockets s
              (λ sk, Socket r (onclose sk) (sock_channelId sk) (sock_token sk)
                       (sock_call sk)) w) as (l & -> & Hl).
  by open_world w.
Qed.

Lemma set_readyState_lookup (s : nat) (r : ready_state) (w : world) (sk : socket) :
  sockets w !! s = Some sk →
  sockets (set_readyState s r w) !! s
  = Some (Socket r (onclose sk) (sock_channelId sk) (sock_token sk) (sock_call sk)).
Proof. apply modify_socket_lookup. Qed.

Lemma set_onclose_lookup (s : nat) (h : onclose_handler) (w : world) (sk : socket) :
  sockets w !! s = Some sk →
  sockets (set_onclose s h w) !! s
  = Some (Socket (readyState sk) h (sock_channelId sk) (sock_token sk) (sock_call sk)).
Proof. apply modify_socket_lookup. Qed.

Lemma step_WsClose (w : world) (s : nat) (sk : socket) (code : Z) (reason : string) :
  sockets w !! s = Some sk →
  step w (WsClose s code reason)
  = match onclose sk with
    | OnCloseOfConnect => onclose_of_connect sk code reason (set_readyState s CLOSED w)
    | OnCloseOfDisconnect k => onclose_of_disconnect k (set_readyState s CLOSED w)
    end.
Proof. intros Hs. simpl. by rewrite Hs. Qed.

Lemma chatSocket_open_Some (w : world) (s : nat) :
  chatSocket_open w = Some s →
  chatSocket (this w) = Some s
  ∧ ∃ sk, sockets w !! s = Some sk ∧ readyState sk = OPEN.
Proof.
  unfold chatSocket_open. destruct (chatSocket (this w)) as [s'|]; [|done].
  destruct (sockets w !! s') as [sk|] eqn:Hs; [|done].
  destruct (readyState sk) eqn:Hr; simpl; try done.
  intros [= <-]. eauto.
Qed.

Lemma chatSocket_open_cleanup (w : world) :
  chatSocket_open (_cleanupChatConnection w) = chatSocket_open w.
Proof.
  destruct (_cleanupChatConnection_spec w) as (_ & _ & Hcs & _ & _ & Hsk & _).
  unfold chatSocket_open. by rewrite Hcs, Hsk.
Qed.

(** A teardown, together with the close event it waits for when the socket
    is open, ends in the continuation of whoever awaits it. *)
Lemma disconnectChat_completes (k : awaiter) (w : world) :
  ∃ w', run (disconnectChat k w) (teardown w) = resume k w' ∧ torn_down w w'.
Proof.
  unfold disconnectChat, teardown.
  destruct (chatSocket (this w)) as [s|] eqn:Hcs.
  - rewrite chatSocket_open_cleanup.
    destruct (_cleanupChatConnection_spec w)
      as (_ & _ & Hcs' & Hcc & Hmx & Hsk & Htm & Hpr & Hfe & Htr & _ & Hem & _).
    destruct (chatSocket_open w) as [s'|] eqn:Hopen.
    + apply chatSocket_open_Some in Hopen as (Hcs2 & sk & Hs & Hr).
      assert (s' = s) as -> by congruence.
      set (w0 := _cleanupChatConnection w) in *.
      rewrite <- Hsk in Hs.
      pose proof (set_onclose_lookup s (OnCloseOfDisconnect k) _ _ Hs) as Hs1.
      set (w1 := set_onclose s (OnCloseOfDisconnect k) w0) in *.
      pose proof (set_readyState_lookup s CLOSING _ _ Hs1) as Hs2.
      set (w2 := set_readyState s CLOSING w1) in *.
      exists (set_chatSocket None (set_readyState s CLOSED w2)). split.
      * change (run w2 [WsClose s 1000 ""]) with (step w2 (WsClose s 1000 "")).
        by rewrite (step_WsClose _ _ _ _ _ Hs2).
      * subst w2 w1. unfold set_readyState, set_onclose.
        destruct (modify_socket_is_set_sockets s
          (λ sk, Socket (readyState sk) (OnCloseOfDisconnect k) (sock_channelId sk)
                   (sock_token sk) (sock_call sk)) w0) as (l1 & -> & Hl1).
        destruct (modify_socket_is_set_sockets s
          (λ sk, Socket CLOSING (onclose sk) (sock_channelId sk)
                   (sock_token sk) (sock_call sk)) (set_sockets l1 w0))
          as (l2 & -> & Hl2).
        destruct (modify_socket_is_set_sockets s
          (λ sk, Socket CLOSED (onclose sk) (sock_channelId sk)
                   (sock_token sk) (sock_call sk)) (set_sockets l2 (set_sockets l1 w0)))
          as (l3 & -> & Hl3).
        open_world w0. simpl in *. unfold torn_down. simpl.
        repeat split; congruence.
    + exists (set_chatSocket None (_cleanupChatConnection w)). split; [done|].
      set (w0 := _cleanupChatConnection w) in *. open_world w0. simpl in *.
      unfold torn_down. simpl. repeat split; congruence.
  - assert (chatSocket_open w = None) as ->.
    { unfold chatSocket_open. by rewrite Hcs. }
    exists w. split; [done|]. unfold torn_down. repeat split; done.
Qed.

Lemma teardown_set_promises (v : list promise) (w : world) :
  teardown (set_promises v w) = teardown w.
Proof. by open_world w. Qed.

Lemma eqb_nonempty (channelId : string) :
  channelId ≠ "" → String.eqb channelId "" = false.
Proof. intros H. by apply String.eqb_neq. Qed.


Lemma step_TokenFetched (w : world) (call : nat) (channelId : string)
    (result : completion string) (ws : completion unit) :
  fetching w !! call = Some channelId →
  step w (TokenFetched call result ws)
  = connectChat_fetched call channelId result ws
      (set_fetching (delete call (fetching w)) w).
Proof. intros Hf. simpl. by rewrite Hf. Qed.




(** *** The claims about the chat session *)

(** C1: five closures in a row, each followed by the reconnect that it
    schedules, schedule five timers of 2000 ms, not 2000, 4000, 8000, 16000
    and 32000; and the closure after the fifth reconnect schedules a sixth
    timer, again of 2000 ms, which is still waiting. *)
Theorem reconnect_delays_stay_at_2s :
  delay <$> timers five_closures = [2000; 2000; 2000; 2000; 2000]
  ∧ delay <$> timers sixth_closure = [2000; 2000; 2000; 2000; 2000; 2000]
  ∧ timers sixth_closure !! 5%nat = Some (Timer 2000 "c1" true)
  ∧ chatReconnectAttempts (this sixth_closure) = 1.
Proof. repeat split; by vm_compute. Qed.

(** C4, as the code has it: an error event on a socket that has not opened
    rejects the [connectChat] call with that error, emits [chatError] and
    makes no timer; the close event that follows finds the close callback of
    [connectChat] in place, which does not ask whether the socket ever
    opened, and schedules a reconnect after 2000 ms.  A [new WebSocket] that
    throws rejects the call with what was thrown and makes no timer and no
    socket. *)
Theorem close_without_open_schedules_reconnect (w : world) (s : nat) (sk : socket)
    (error : exn) (code : Z) (reason : string) :
  sockets w !! s = Some sk →
  readyState sk = CONNECTING →
  onclose sk = OnCloseOfConnect →
  promises w !! sock_call sk = Some Pending →
  0 < chatMaxReconnectAttempts (this w) →
  let w1 := step w (WsError s error) in
  (promises w1 !! sock_call sk = Some (Rejected error)
   ∧ timers w1 = timers w
   ∧ emitted w1 = emitted w ++ [chatError error None])
  ∧ timers (step w1 (WsClose s code reason))
    = timers w ++ [Timer 2000 (sock_channelId sk) true]
  ∧ (∀ call channelId token,
       fetching w !! call = Some channelId →
       promises w !! call = Some Pending →
       let w' := step w (TokenFetched call (Returns token) (Throws error)) in
       promises w' !! call = Some (Rejected error)
       ∧ timers w' = timers w ∧ sockets w' = sockets w).
Proof.
  intros Hs Hcon Hoc Hp Hmax. cbn zeta.
  assert (step w (WsError s error)
          = onerror sk error (set_readyState s CLOSED w)) as Hstep.
  { simpl. by rewrite Hs. }
  rewrite Hstep.
  destruct (set_readyState_frame s CLOSED w) as (Ht & Htm & Hpr & Hem & _).
  pose proof (set_readyState_lookup s CLOSED w sk Hs) as Hlk.
  set (w0 := set_readyState s CLOSED w) in *.
  unfold onerror.
  destruct (settle_frame (sock_call sk) (Rejected error)
              (_triggerEvent (chatError error None) w0))
    as (Ht' & Hsk' & Htm' & Hem' & _).
  split; [split; [|split]|split].
  - apply settle_pending. unfold _triggerEvent. simpl.
    replace (promises (set_emitted (emitted w0 ++ [chatError error None]) w0))
      with (promises w0) by (by destruct w0). congruence.
  - rewrite Htm'. unfold _triggerEvent. by destruct w0.
  - rewrite Hem'. unfold _triggerEvent. rewrite <- Hem. by destruct w0.
  - set (w1 := settle _ _ _) in *.
    assert (sockets w1 !! s = Some (Socket CLOSED (onclose sk) (sock_channelId sk)
                                      (sock_token sk) (sock_call sk))) as Hs1.
    { rewrite Hsk'. unfold _triggerEvent. by destruct w0. }
    simpl. rewrite Hs1. simpl. rewrite Hoc.
    destruct (set_readyState_frame s CLOSED w1) as (Ht1 & Htm1 & _).
    destruct (onclose_of_connect_spec
                (Socket CLOSED OnCloseOfConnect (sock_channelId sk) (sock_token sk)
                   (sock_call sk)) code reason (set_readyState s CLOSED w1))
      as (Htimers & _).
    { rewrite Ht1, Ht'. unfold _triggerEvent.
      replace (this (set_emitted (emitted w0 ++ [chatError error None]) w0))
        with (this w0) by (by destruct w0). by rewrite Ht. }
    rewrite Htimers. simpl. rewrite Htm1, Htm'. unfold _triggerEvent.
    replace (timers (set_emitted (emitted w0 ++ [chatError error None]) w0))
      with (timers w0) by (by destruct w0). by rewrite Htm.
  - intros call channelId token Hf Hpc. simpl. rewrite Hf.
    unfold connectChat_fetched.
    destruct (settle_frame call (Rejected error)
                (set_fetching (delete call (fetching w)) w))
      as (_ & Hsk2 & Htm2 & _).
    split; [|split].
    + apply settle_pending. by open_world w.
    + rewrite Htm2. by open_world w.
    + rewrite Hsk2. by open_world w.
Qed.

Lemma close_without_open_schedules_reconnect_witness :
  let sk := Socket CONNECTING OnCloseOfConnect "c1" "token" 0 in
  let w1 := step awaiting_open (WsError 0 (WebSocketError 0)) in
  (promises w1 !! sock_call sk = Some (Rejected (WebSocketError 0))
   ∧ timers w1 = timers awaiting_open
   ∧ emitted w1 = emitted awaiting_open ++ [chatError (WebSocketError 0) None])
  ∧ timers (step w1 (WsClose 0 1006 ""))
    = timers awaiting_open ++ [Timer 2000 (sock_channelId sk) true]
  ∧ (∀ call channelId token,
       fetching awaiting_open !! call = Some channelId →
       promises awaiting_open !! call = Some Pending →
       let w' := step awaiting_open
                   (TokenFetched call (Returns token) (Throws (WebSocketError 0))) in
       promises w' !! call = Some (Rejected (WebSocketError 0))
       ∧ timers w' = timers awaiting_open ∧ sockets w' = sockets awaiting_open).
Proof.
  apply (close_without_open_schedules_reconnect awaiting_open 0
           (Socket CONNECTING OnCloseOfConnect "c1" "token" 0)
           (WebSocketError 0) 1006 "").
  - reflexivity.
  - reflexivity.
  - reflexivity.
  - reflexivity.
  - vm_compute. reflexivity.
Defined.

(** C4 as it is written fails: the socket of the first [connectChat] never
    opened, and after its error and close events a reconnect is scheduled. *)
Lemma open_failure_schedules_reconnect :
  ¬ (timers (run constructor open_failure) = []).
Proof. intros H. vm_compute in H. discriminate H. Qed.

(** C2, as the code has it: [disconnectChat()] clears no timer.  A backoff
    timer that is waiting when [disconnectChat()] is called is still waiting
    when the disconnect has completed, and when it fires [connectChat] runs
    again for the channel of the timer: the chat token is requested, and with
    the token a new socket is made. *)
Theorem disconnectChat_leaves_timer_waiting (w : world) (t : nat) (tm : timer)
    (token : string) :
  timers w !! t = Some tm →
  waiting tm = true →
  timer_channelId tm ≠ "" →
  let call := length (promises w) in
  let w1 := run w (CallDisconnectChat :: teardown w) in
  (promises w1 !! call = Some Resolved
   ∧ chatSocket (this w1) = None
   ∧ timers w1 !! t = Some tm)
  ∧ let w2 := step w1 (TimeoutFires t) in
    (token_requests w2 = token_requests w ++ [timer_channelId tm]
     ∧ fetching w2 !! S call = Some (timer_channelId tm)
     ∧ chatChannelId (this w2) = Some (timer_channelId tm))
    ∧ let w3 := step w2 (TokenFetched (S call) (Returns token) (Returns tt)) in
      chatSocket (this w3) = Some (length (sockets w))
      ∧ length (sockets w3) = S (length (sockets w)).
Proof.
  intros Ht Hwait Hch. cbn zeta.
  change (run w (CallDisconnectChat :: teardown w))
    with (run (disconnectChat (Caller (length (promises w)))
                 (set_promises (promises w ++ [Pending]) w)) (teardown w)).
  rewrite <- (teardown_set_promises (promises w ++ [Pending]) w).
  destruct (disconnectChat_completes (Caller (length (promises w)))
              (set_promises (promises w ++ [Pending]) w))
    as (w' & -> & Hcs & Hcc & Hmx & Htm & Hpr & Hfe & Htr & Hem & Hlen).
  apply eqb_nonempty in Hch.
  open_world w. open_world w'. simpl in *. subst.
  unfold settle. simpl. rewrite lookup_app_r by done. rewrite Nat.sub_diag. simpl.
  rewrite list_lookup_insert_eq by (rewrite length_app; simpl; lia).
  split; [done|]. rewrite Ht, Hwait. unfold connectChat. simpl. rewrite Hch. simpl.
  rewrite length_insert, length_app. simpl. rewrite Nat.add_1_r.
  rewrite !lookup_insert_eq. simpl. rewrite Hlen.
  repeat split; try done. rewrite length_app. simpl. lia.
Qed.

Lemma disconnectChat_leaves_timer_waiting_witness :
  let tm := Timer 2000 "c1" true in
  let call := length (promises backoff_pending) in
  let w1 := run backoff_pending (CallDisconnectChat :: teardown backoff_pending) in
  (promises w1 !! call = Some Resolved
   ∧ chatSocket (this w1) = None
   ∧ timers w1 !! 0%nat = Some tm)
  ∧ let w2 := step w1 (TimeoutFires 0) in
    (token_requests w2 = token_requests backoff_pending ++ [timer_channelId tm]
     ∧ fetching w2 !! S call = Some (timer_channelId tm)
     ∧ chatChannelId (this w2) = Some (timer_channelId tm))
    ∧ let w3 := step w2 (TokenFetched (S call) (Returns "token") (Returns tt)) in
      chatSocket (this w3) = Some (length (sockets backoff_pending))
      ∧ length (sockets w3) = S (length (sockets backoff_pending)).
Proof.
  apply (disconnectChat_leaves_timer_waiting backoff_pending 0
           (Timer 2000 "c1" true) "token").
  - reflexivity.
  - reflexivity.
  - discriminate.
Defined.

(** C2 as it is written fails: the disconnect has completed, and the timer
    still fires, asks for a token and opens a socket. *)
Lemma timer_fires_after_disconnectChat :
  promises disconnected_during_backoff !! 1%nat = Some Resolved
  ∧ ¬ (token_requests timer_after_disconnect
         = token_requests disconnected_during_backoff
       ∧ length (sockets timer_after_disconnect)
         = length (sockets disconnected_during_backoff)).
Proof.
  split; [by vm_compute|]. intros [H _]. vm_compute in H. discriminate H.
Qed.



(** C5, as the code has it: [connectChat] on a client whose socket is open
    stops the heartbeat, puts the reconnect counter to 0, replaces the close
    callback of the old socket and closes it, all before it asks for the new
    chat token; the close event of the old socket then runs the replaced
    callback, which emits nothing.  No [chatDisconnected] event is emitted
    for the old connection, and no reconnect timer is made. *)
Theorem connectChat_tears_down_without_event (w : world) (s : nat) (sk : socket)
    (channelId : string) (code : Z) (reason : string) :
  channelId ≠ "" →
  chatSocket (this w) = Some s →
  sockets w !! s = Some sk →
  readyState sk = OPEN →
  let call := length (promises w) in
  let w1 := step w (CallConnectChat channelId) in
  (readyState <$> sockets w1 !! s = Some CLOSING
   ∧ chatHeartbeatInterval (this w1) = None
   ∧ (∀ i, chatHeartbeatInterval (this w) = Some i →
           (i < length (intervals w))%nat → intervals w1 !! i = Some false)
   ∧ chatReconnectAttempts (this w1) = 0
   ∧ token_requests w1 = token_requests w
   ∧ length (sockets w1) = length (sockets w)
   ∧ emitted w1 = emitted w)
  ∧ let w2 := step w1 (WsClose s code reason) in
    readyState <$> sockets w2 !! s = Some CLOSED
    ∧ chatSocket (this w2) = None
    ∧ emitted w2 = emitted w
    ∧ timers w2 = timers w
    ∧ token_requests w2 = token_requests w ++ [channelId]
    ∧ fetching w2 !! call = Some channelId
    ∧ chatChannelId (this w2) = Some channelId.
Proof.
  intros Hch Hcs Hs Hopen. apply eqb_nonempty in Hch. cbn zeta.
  set (k := ConnectChat (length (promises w)) channelId).
  set (wp := set_promises (promises w ++ [Pending]) w).
  destruct (_cleanupChatConnection_spec wp)
    as (Hra & Hhb & Hcs' & Hcc & Hmx & Hsk & Htm & Hpr & Hfe & Htr & Hse & Hem
        & Hiv & Hclr).
  set (w0 := _cleanupChatConnection wp) in *.
  assert (sockets w0 !! s = Some sk) as Hs0 by (rewrite Hsk; by open_world w).
  assert (step w (CallConnectChat channelId)
          = set_readyState s CLOSING (set_onclose s (OnCloseOfDisconnect k) w0))
    as ->.
  { assert (chatSocket (this wp) = Some s) as Hcsp by (by open_world w).
    assert (chatSocket_open w0 = Some s) as Hop.
    { unfold chatSocket_open. by rewrite Hcs', Hcsp, Hs0, Hopen. }
    simpl. unfold connectChat. rewrite Hch. fold wp. rewrite Hcsp.
    unfold disconnectChat. rewrite Hcsp.
    change (_cleanupChatConnection wp) with w0. by rewrite Hop. }
  pose proof (set_onclose_lookup s (OnCloseOfDisconnect k) _ _ Hs0) as Hs1.
  set (w1 := set_onclose s (OnCloseOfDisconnect k) w0) in *.
  pose proof (set_readyState_lookup s CLOSING _ _ Hs1) as Hs2.
  set (w2 := set_readyState s CLOSING w1) in *.
  rewrite (step_WsClose _ _ _ _ _ Hs2). cbn [onclose]. unfold onclose_of_disconnect.
  pose proof (set_readyState_lookup s CLOSED _ _ Hs2) as Hs3.
  set (w3 := set_readyState s CLOSED w2) in *.
  assert (∃ l2 l3, w2 = set_sockets l2 w0 ∧ w3 = set_sockets l3 w0
                   ∧ length l2 = length (sockets w0)) as (l2 & l3 & Hw2 & Hw3 & Hl2).
  { subst w3 w2 w1. unfold set_readyState, set_onclose.
    destruct (modify_socket_is_set_sockets s
      (λ sk, Socket (readyState sk) (OnCloseOfDisconnect k) (sock_channelId sk)
               (sock_token sk) (sock_call sk)) w0) as (l1 & -> & Hl1).
    destruct (modify_socket_is_set_sockets s
      (λ sk, Socket CLOSING (onclose sk) (sock_channelId sk)
               (sock_token sk) (sock_call sk)) (set_sockets l1 w0))
      as (l2 & -> & Hl2).
    destruct (modify_socket_is_set_sockets s
      (λ sk, Socket CLOSED (onclose sk) (sock_channelId sk)
               (sock_token sk) (sock_call sk)) (set_sockets l2 (set_sockets l1 w0)))
      as (l3 & -> & Hl3).
    exists l2, l3. open_world w0. simpl in *. repeat split; congruence. }
  subst k. unfold resume.
  split.
  - rewrite Hs2. split; [done|]. rewrite Hw2.
    assert (∀ i, chatHeartbeatInterval (this w) = Some i →
                 (i < length (intervals w))%nat → intervals w0 !! i = Some false)
      as Hclr'.
    { intros i Hi Hlt. apply Hclr; by open_world w. }
    assert (token_requests w0 = token_requests w) by (rewrite Htr; by open_world w).
    assert (emitted w0 = emitted w) by (rewrite Hem; by open_world w).
    assert (length (sockets w0) = length (sockets w)) by (rewrite Hsk; by open_world w).
    clear Hclr. open_world w0. simpl in *. repeat split; try done. congruence.
  - assert (sockets (connectChat_resumed (length (promises w)) channelId
                       (set_chatSocket None w3)) = sockets w3) as ->.
    { by open_world w3. }
    rewrite Hs3. split; [done|]. rewrite Hw3.
    assert (token_requests w0 = token_requests w) by (rewrite Htr; by open_world w).
    assert (emitted w0 = emitted w) by (rewrite Hem; by open_world w).
    assert (timers w0 = timers w) by (rewrite Htm; by open_world w).
    clear Hclr. open_world w0. simpl in *. rewrite lookup_insert_eq.
    repeat split; congruence.
Qed.

Lemma connectChat_tears_down_without_event_witness :
  let call := length (promises connected) in
  let w1 := step connected (CallConnectChat "c2") in
  (readyState <$> sockets w1 !! 0%nat = Some CLOSING
   ∧ chatHeartbeatInterval (this w1) = None
   ∧ (∀ i, chatHeartbeatInterval (this connected) = Some i →
           (i < length (intervals connected))%nat → intervals w1 !! i = Some false)
   ∧ chatReconnectAttempts (this w1) = 0
   ∧ token_requests w1 = token_requests connected
   ∧ length (sockets w1) = length (sockets connected)
   ∧ emitted w1 = emitted connected)
  ∧ let w2 := step w1 (WsClose 0 1000 "") in
    readyState <$> sockets w2 !! 0%nat = Some CLOSED
    ∧ chatSocket (this w2) = None
    ∧ emitted w2 = emitted connected
    ∧ timers w2 = timers connected
    ∧ token_requests w2 = token_requests connected ++ ["c2"]
    ∧ fetching w2 !! call = Some "c2"
    ∧ chatChannelId (this w2) = Some "c2".
Proof.
  apply (connectChat_tears_down_without_event connected 0
           (Socket OPEN OnCloseOfConnect "c1" "token" 0) "c2" 1000 "").
  - discriminate.
  - reflexivity.
  - reflexivity.
  - reflexivity.
Defined.

(** C5 as it is written fails: the second [connectChat] and the close of the
    old socket add no [chatDisconnected] event. *)
Lemma no_chatDisconnected_for_old_connection :
  ¬ (count_chatDisconnected switched_channel = S (count_chatDisconnected connected)).
Proof. intros H. vm_compute in H. discriminate H. Qed.

End ChatFacts.

(** * Further properties of the dispatcher *)

Module SubscriptionsFacts.
Import Events Subscriptions.

Lemma indexOf_None (arr : list handler) (h : handler) :
  indexOf arr h = None ↔ href h ∉ hrefs arr.
Proof.
  unfold hrefs. induction arr as [|x rest IH]; simpl.
  - split; [intros _; apply not_elem_of_nil|done].
  - rewrite not_elem_of_cons. destruct (href x =? href h)%nat eqn:Heq.
    + apply Nat.eqb_eq in Heq. split; [done|]. intros [Hne _]. congruence.
    + apply Nat.eqb_neq in Heq. destruct (indexOf rest h) as [j|]; simpl.
      * split; [done|]. intros [_ Hnot]. by apply IH in Hnot.
      * split; [|done]. intros _. split; [congruence|]. by apply IH.
Qed.

Lemma indexOf_Some (arr : list handler) (h : handler) (i : nat) :
  indexOf arr h = Some i → hrefs arr !! i = Some (href h).
Proof.
  unfold hrefs. revert i. induction arr as [|x rest IH]; intros i; simpl; [done|].
  destruct (href x =? href h)%nat eqn:Heq.
  - apply Nat.eqb_eq in Heq. intros [= <-]. simpl. by rewrite Heq.
  - destruct (indexOf rest h) as [j|]; simpl; [|done].
    intros [= <-]. simpl. by apply IH.
Qed.

Lemma indexOf_app_found (arr k : list handler) (h : handler) (i : nat) :
  indexOf arr h = Some i → indexOf (arr ++ k) h = Some i.
Proof.
  revert i. induction arr as [|x rest IH]; intros i; simpl; [done|].
  destruct (href x =? href h)%nat; [done|].
  destruct (indexOf rest h) as [j|]; simpl; [|done].
  intros [= <-]. by rewrite (IH j).
Qed.

Lemma indexOf_app_fresh (arr : list handler) (h : handler) :
  href h ∉ hrefs arr → indexOf (arr ++ [h]) h = Some (length arr).
Proof.
  unfold hrefs. induction arr as [|x rest IH]; simpl.
  - intros _. by rewrite Nat.eqb_refl.
  - rewrite not_elem_of_cons. intros [Hne Hnot].
    assert ((href x =? href h)%nat = false) as -> by (apply Nat.eqb_neq; congruence).
    by rewrite (IH Hnot).
Qed.

Lemma delete_snoc {A} (l : list A) (x : A) : delete (length l) (l ++ [x]) = l.
Proof. induction l as [|y l IH]; simpl; [done|]. by rewrite IH. Qed.

Lemma delete_app_lt {A} (l k : list A) (i : nat) :
  (i < length l)%nat → delete i (l ++ k) = delete i l ++ k.
Proof.
  revert i. induction l as [|y l IH]; intros i Hlt; simpl in *; [lia|].
  destruct i as [|i]; [done|]. simpl. rewrite IH by lia. done.
Qed.

(** [on(name, h)] followed by the function it returned.  When [h] was not
    registered for [name], the registry is as before.  When it was, the
    function removes the earlier registration and the new one stays, at the
    end of the array. *)
Theorem on_then_unsubscribe (reg : registry) (name : string) (h : handler)
    (arr : list handler) :
  reg !! name = Some arr →
  ∃ reg' unsubscribe,
    on reg name h = Returns (reg', unsubscribe)
    ∧ unsubscribe reg'
      = Returns (match indexOf arr h with
                 | Some i => <[name := delete i arr ++ [h]]> reg
                 | None => reg
                 end).
Proof.
  intros Harr. unfold on. rewrite (EventsFacts.get_own _ _ _ Harr).
  eexists _, _. split; [reflexivity|]. cbn beta.
  unfold off, get. rewrite lookup_insert_eq.
  destruct (indexOf arr h) as [i|] eqn:Hi.
  - rewrite (indexOf_app_found _ _ _ _ Hi). rewrite insert_insert_eq.
    rewrite delete_app_lt; [done|].
    apply indexOf_Some, lookup_lt_Some in Hi. unfold hrefs in Hi.
    by rewrite length_fmap in Hi.
  - apply indexOf_None in Hi. rewrite (indexOf_app_fresh _ _ Hi).
    rewrite insert_insert_eq, delete_snoc. by rewrite insert_id.
Qed.

Lemma on_then_unsubscribe_witness :
  ∃ reg' unsubscribe,
    on constructor_eventHandlers "chatMessage" subscriberA
      = Returns (reg', unsubscribe)
    ∧ unsubscribe reg'
      = Returns (match indexOf [] subscriberA with
                 | Some i => <["chatMessage" := delete i [] ++ [subscriberA]]>
                               constructor_eventHandlers
                 | None => constructor_eventHandlers
                 end).
Proof.
  apply (on_then_unsubscribe constructor_eventHandlers "chatMessage" subscriberA []).
  reflexivity.
Defined.

Lemma register_all_lookup (hs : list handler) (reg : registry) (name : string)
    (arr : list handler) :
  reg !! name = Some arr →
  register_all reg name hs !! name = Some (arr ++ hs).
Proof.
  unfold register_all. revert reg arr.
  induction hs as [|h hs IH]; intros reg arr Harr; simpl.
  - by rewrite app_nil_r.
  - rewrite (IH _ (arr ++ [h])); [by rewrite <- app_assoc|].
    unfold on. rewrite (EventsFacts.get_own _ _ _ Harr). simpl.
    apply lookup_insert_eq.
Qed.

(** Handlers registered with [on] are called in the order of their
    registration: a dispatch after [on(name, h)] for each [h] of [hs] calls
    the handlers that were there before and then those of [hs], each once
    and with the dispatched data, when none of them deregisters; what they
    throw is logged and nothing else happens to the registry. *)
Theorem dispatch_in_registration_order {D} (reg : registry) (name : string)
    (arr hs : list handler) (data : D) :
  reg !! name = Some arr →
  Forall plain (arr ++ hs) →
  let reg' := register_all reg name hs in
  _triggerEvent reg' name data
  = Some (Returns (Dispatch reg' ((λ h, (h, data)) <$> (arr ++ hs))
                     (omap (raised name) (arr ++ hs)))).
Proof.
  intros Harr Hplain reg'.
  pose proof (register_all_lookup hs reg name arr Harr) as Hlk. fold reg' in Hlk.
  unfold _triggerEvent. rewrite (EventsFacts.get_own _ _ _ Hlk).
  rewrite (EventsFacts.for_of_plain _ _ _ _ _ (arr ++ hs)); simpl;
    [done|done|by rewrite drop_0|lia].
Qed.

Lemma dispatch_in_registration_order_witness :
  let reg' := register_all constructor_eventHandlers "chatNotice"
                [subscriberB; subscriberA] in
  _triggerEvent reg' "chatNotice" 3%nat
  = Some (Returns (Dispatch reg'
                     ((λ h, (h, 3%nat)) <$> ([] ++ [subscriberB; subscriberA]))
                     (omap (raised "chatNotice") ([] ++ [subscriberB; subscriberA])))).
Proof.
  apply (dispatch_in_registration_order constructor_eventHandlers "chatNotice" []
           [subscriberB; subscriberA] 3%nat).
  - reflexivity.
  - repeat constructor.
Defined.

(** *** A [once] closure is called at most once *)

Lemma narrows_refl (reg : registry) : narrows reg reg.
Proof. intros m arr Hm. eauto. Qed.

Lemma narrows_trans (r1 r2 r3 : registry) :
  narrows r1 r2 → narrows r2 r3 → narrows r1 r3.
Proof.
  intros H12 H23 m arr Hm. destruct (H12 _ _ Hm) as (a2 & Hm2 & Hs2).
  destruct (H23 _ _ Hm2) as (a3 & Hm3 & Hs3). exists a3. split; [done|].
  by etrans.
Qed.

Lemma off_narrows (reg reg' : registry) (n : string) (h : handler) :
  off reg n h = Returns reg' → narrows reg reg'.
Proof.
  unfold off. destruct (get reg n) as [a| |] eqn:Hg;
    [|done|intros [= <-]; apply narrows_refl].
  apply EventsFacts.get_Handlers in Hg.
  destruct (indexOf a h) as [i|]; intros [= <-]; [|apply narrows_refl].
  intros m arr Hm. destruct (decide (n = m)) as [->|Hne].
  - rewrite lookup_insert_eq. eexists; split; [done|].
    assert (a = arr) as -> by congruence. apply sublist_delete.
  - rewrite lookup_insert_ne by done. eauto.
Qed.

Lemma run_body_narrows (body : list (string * handler)) (reg : registry) :
  narrows reg (run_body body reg).1.
Proof.
  revert reg. induction body as [|[n h] rest IH]; intros reg; simpl.
  - apply narrows_refl.
  - destruct (off reg n h) as [reg'|e] eqn:Hoff; simpl.
    + eapply narrows_trans; [by eapply off_narrows|apply IH].
    + apply narrows_refl.
Qed.

Lemma call_narrows (h : handler) (reg : registry) : narrows reg (call h reg).1.
Proof.
  revert reg. induction h as [r body raises|r n inner IH]; intros reg; simpl.
  - pose proof (run_body_narrows body reg) as Hb.
    destruct (run_body body reg) as [reg' [u|e]]; exact Hb.
  - destruct (off reg n (OnceHandler r n inner)) as [reg'|e] eqn:Hoff; simpl.
    + eapply narrows_trans; [by eapply off_narrows|apply IH].
    + apply narrows_refl.
Qed.

Lemma NoDup_delete_lookup {A} (l : list A) (i : nat) (x : A) :
  NoDup l → l !! i = Some x → x ∉ delete i l.
Proof.
  intros Hnd Hi. rewrite delete_take_drop.
  rewrite <- (take_drop_middle l i x Hi) in Hnd.
  apply list.NoDup_app in Hnd as (_ & Hdisj & Hnd).
  apply list.NoDup_cons in Hnd as [Hnot _].
  rewrite elem_of_app. intros [Hin|Hin]; [|done].
  apply (Hdisj x Hin). apply elem_of_cons. by left.
Qed.

Lemma off_forgets (reg reg' : registry) (n : string) (h : handler)
    (arr : list handler) :
  off reg n h = Returns reg' →
  reg !! n = Some arr →
  NoDup (hrefs arr) →
  ∃ arr', reg' !! n = Some arr' ∧ href h ∉ hrefs arr'.
Proof.
  intros Hoff Harr Hnd. unfold off in Hoff.
  rewrite (EventsFacts.get_own _ _ _ Harr) in Hoff.
  destruct (indexOf arr h) as [i|] eqn:Hi; injection Hoff as <-.
  - rewrite lookup_insert_eq. eexists; split; [done|].
    unfold hrefs. rewrite list_fmap_delete.
    apply NoDup_delete_lookup; [done|]. by apply indexOf_Some.
  - exists arr. split; [done|]. by apply indexOf_None.
Qed.

Lemma narrows_hrefs (reg reg' : registry) (n : string) (arr arr' : list handler)
    (r : nat) :
  narrows reg reg' → reg !! n = Some arr → reg' !! n = Some arr' →
  (r ∈ hrefs arr' → r ∈ hrefs arr) ∧ (NoDup (hrefs arr) → NoDup (hrefs arr')).
Proof.
  intros Hn Harr Harr'. destruct (Hn _ _ Harr) as (a & Ha & Hsub).
  assert (a = arr') as -> by congruence.
  assert (hrefs arr' `sublist_of` hrefs arr) as Hs by (by apply fmap_sublist).
  split.
  - intros Hin. by eapply elem_of_sublist.
  - intros Hnd. by eapply sublist_NoDup.
Qed.

(** The call of a [once] closure for [name] leaves an array for [name] that
    does not hold the closure any more. *)
Lemma call_once_forgets (h : handler) (reg : registry) (name : string)
    (arr : list handler) :
  once_for name h →
  reg !! name = Some arr →
  NoDup (hrefs arr) →
  ∃ arr', (call h reg).1 !! name = Some arr' ∧ href h ∉ hrefs arr'.
Proof.
  destruct h as [|r n inner]; [done|]. simpl. intros <- Harr Hnd.
  destruct (off reg n (OnceHandler r n inner)) as [reg1|e] eqn:Hoff.
  - destruct (off_forgets _ _ _ _ _ Hoff Harr Hnd) as (a1 & Ha1 & Hnot).
    destruct (call_narrows inner reg1 _ _ Ha1) as (a2 & Ha2 & Hsub).
    exists a2. split; [done|]. intros Hin. apply Hnot.
    eapply elem_of_sublist; [exact Hin|]. by apply fmap_sublist.
  - unfold off in Hoff. rewrite (EventsFacts.get_own _ _ _ Harr) in Hoff.
    by destruct (indexOf arr (OnceHandler r n inner)).
Qed.

Lemma for_of_once {D} (fuel : nat) (name : string) (data : D) (i : nat)
    (st r : dispatch D) (arr : list handler) :
  handlers_now st !! name = Some arr →
  NoDup (hrefs arr) →
  (∀ c, c ∈ invoked st → once_for name c.1 → href c.1 ∉ hrefs arr) →
  for_of fuel name data i st = Some r →
  ∃ arr', handlers_now r !! name = Some arr'
          ∧ NoDup (hrefs arr')
          ∧ ∀ c, c ∈ invoked r → once_for name c.1 → href c.1 ∉ hrefs arr'.
Proof.
  revert i st arr. induction fuel as [|fuel IH]; intros i st arr Harr Hnd Hold; [done|].
  simpl. rewrite Harr. destruct (arr !! i) as [h|] eqn:Hi.
  - pose proof (call_narrows h (handlers_now st)) as Hn.
    pose proof (call_once_forgets h (handlers_now st) name arr) as Hforget.
    destruct (call h (handlers_now st)) as [reg1 c1]. simpl in Hn, Hforget.
    destruct (Hn _ _ Harr) as (arr1 & Harr1 & Hsub).
    destruct (narrows_hrefs _ _ _ _ _ 0%nat Hn Harr Harr1) as [_ Hnd1].
    apply IH with (arr := arr1); simpl; [done|by apply Hnd1|].
    intros c Hc Honce. apply elem_of_app in Hc as [Hc|Hc].
    + intros Hin. apply (Hold c Hc Honce).
      by apply (proj1 (narrows_hrefs _ _ _ _ _ (href c.1) Hn Harr Harr1)).
    + apply list_elem_of_singleton in Hc as ->. simpl in *.
      destruct (Hforget Honce Harr Hnd) as (a & Ha & Hnot). congruence.
  - intros [= <-]. eauto.
Qed.

Lemma for_of_called_from {D} (fuel : nat) (name : string) (data : D) (i : nat)
    (st r : dispatch D) (arr : list handler) :
  handlers_now st !! name = Some arr →
  for_of fuel name data i st = Some r →
  ∀ c, c ∈ invoked r → c ∈ invoked st ∨ href c.1 ∈ hrefs arr.
Proof.
  revert i st arr. induction fuel as [|fuel IH]; intros i st arr Harr; [done|].
  simpl. rewrite Harr. destruct (arr !! i) as [h|] eqn:Hi.
  - pose proof (call_narrows h (handlers_now st)) as Hn.
    destruct (call h (handlers_now st)) as [reg1 c1]. simpl in Hn.
    destruct (Hn _ _ Harr) as (arr1 & Harr1 & Hsub).
    intros Hrun c Hc.
    destruct (IH _ _ arr1 (Harr1 : handlers_now (Dispatch reg1 _ _) !! name = _)
                Hrun c Hc) as [Hin|Hin]; simpl in *.
    + apply elem_of_app in Hin as [Hin|Hin]; [by left|].
      apply list_elem_of_singleton in Hin as ->. right. simpl.
      unfold hrefs. apply list_elem_of_fmap. exists h. split; [done|].
      apply list_elem_of_lookup. eauto.
    + right. by apply (proj1 (narrows_hrefs _ _ _ _ _ (href c.1) Hn Harr Harr1)).
  - intros [= <-]. eauto.
Qed.

(** A closure made by [once] is called at most once: of two dispatches of
    an event in a row, the second calls none of the [once] closures for that
    event that the first one called (no function being registered twice for
    the event). *)
Theorem once_is_called_at_most_once {D} (reg : registry) (name : string)
    (arr : list handler) (d1 d2 : D) :
  reg !! name = Some arr →
  NoDup (hrefs arr) →
  ∃ r1 r2,
    _triggerEvent reg name d1 = Some (Returns r1)
    ∧ _triggerEvent (handlers_now r1) name d2 = Some (Returns r2)
    ∧ ∀ c, c ∈ invoked r1 → once_for name c.1 → href c.1 ∉ called r2.
Proof.
  intros Harr Hnd.
  destruct (EventsFacts._triggerEvent_returns reg name d1 arr Harr) as (r1 & Hr1 & _).
  exists r1. pose proof Hr1 as Hrun1. unfold _triggerEvent in Hrun1.
  rewrite (EventsFacts.get_own _ _ _ Harr) in Hrun1.
  destruct (for_of (S (length arr)) name d1 0 (Dispatch reg [] [])) as [r|] eqn:Hfor;
    [|done].
  injection Hrun1 as ->.
  destruct (for_of_once (S (length arr)) name d1 0 (Dispatch reg [] []) r1 arr
              Harr Hnd (λ c Hc, False_ind _ (not_elem_of_nil c Hc)) Hfor)
    as (arr1 & Harr1 & Hnd1 & Hgone).
  destruct (EventsFacts._triggerEvent_returns (handlers_now r1) name d2 arr1 Harr1)
    as (r2 & Hr2 & _).
  exists r2. split; [done|]. split; [done|].
  intros c Hc Honce Hin. apply (Hgone c Hc Honce).
  unfold _triggerEvent in Hr2. rewrite (EventsFacts.get_own _ _ _ Harr1) in Hr2.
  destruct (for_of (S (length arr1)) name d2 0 (Dispatch (handlers_now r1) [] []))
    as [r|] eqn:Hfor2; [|done].
  injection Hr2 as ->.
  unfold called in Hin. apply list_elem_of_fmap in Hin as (c2 & Heq & Hc2).
  destruct (for_of_called_from (S (length arr1)) name d2 0
              (Dispatch (handlers_now r1) [] []) r2 arr1 Harr1 Hfor2 c2 Hc2)
    as [Hnil|Hfrom].
  - by apply not_elem_of_nil in Hnil.
  - by rewrite Heq.
Qed.

Lemma once_is_called_at_most_once_witness :
  ∃ r1 r2,
    _triggerEvent once_then_on "chatMessage" 1%nat = Some (Returns r1)
    ∧ _triggerEvent (handlers_now r1) "chatMessage" 2%nat = Some (Returns r2)
    ∧ ∀ c, c ∈ invoked r1 → once_for "chatMessage" c.1 → href c.1 ∉ called r2.
Proof.
  apply (once_is_called_at_most_once once_then_on "chatMessage"
           [OnceHandler 3 "chatMessage" subscriberA; subscriberB] 1%nat 2%nat).
  - reflexivity.
  - apply (bool_decide_unpack _). vm_compute. exact I.
Defined.

End SubscriptionsFacts.

(** * Further properties of the frame classification *)

Module FrameKindsFacts.
Import Frames FrameKinds.

(** Case analysis on the next character of the discriminator. *)
Ltac next_char s :=
  destruct s as [|[[] [] [] [] [] [] [] []] s]; try reflexivity; try discriminate.

Lemma truthy_js_or (v d : value) : truthy d = true → truthy (js_or v d) = true.
Proof. intros Hd. unfold js_or. by destruct (truthy v) eqn:Hv. Qed.

(** A message whose [type] is none of CHAT, DONATION, SUBSCRIPTION and
    NOTICE makes no event: a PONG, a type the client does not know, a type
    that is not a string, a message without [type], and a message that is
    not an object (but not [null], which has no properties to read). *)
Theorem unrecognized_frame_is_ignored (chatChannelId : value) (now : Z)
    (message type : value) :
  member message "type" = Returns type →
  (∀ s, type = VStr s → s ∉ frame_types) →
  _handleChatMessage chatChannelId now message = Returns None.
Proof.
  intros Hm Hs. unfold _handleChatMessage. rewrite Hm. clear Hm.
  destruct type as [| | | |s| |]; try reflexivity.
  specialize (Hs s eq_refl).
  do 13 (try next_char s).
  all: exfalso; apply Hs; unfold frame_types; rewrite !elem_of_cons; tauto.
Qed.

Lemma unrecognized_frame_is_ignored_witness :
  _handleChatMessage (VStr "c1") 1700000000000
    (VObj [("type", VStr "WHISPER"); ("content", VStr "psst")]) = Returns None.
Proof.
  apply (unrecognized_frame_is_ignored (VStr "c1") 1700000000000
           (VObj [("type", VStr "WHISPER"); ("content", VStr "psst")])
           (VStr "WHISPER")).
  - reflexivity.
  - intros s [= <-]. unfold frame_types. rewrite !elem_of_cons, elem_of_nil.
    intros [H|[H|[H|[H|[]]]]]; discriminate H.
Defined.

(** Whatever event a message makes, it is one of the four chat events, its
    data is an object, and every field that the source fills with a default
    is truthy in it: subscribers never see a missing, null, zero or empty
    [badges], [timestamp], [currency], [months], [tier], [tierName] or
    [noticeType] (the clock being past 0). *)
Theorem defaulted_fields_are_truthy (chatChannelId : value) (now : Z)
    (message data : value) (eventName : string) :
  0 < now →
  _handleChatMessage chatChannelId now message = Returns (Some (eventName, data)) →
  eventName ∈ ["chatMessage"; "chatDonation"; "chatSubscription"; "chatNotice"]
  ∧ ∃ fields, data = VObj fields
      ∧ ∀ key, key ∈ defaulted eventName → truthy (prop fields key) = true.
Proof.
  intros Hnow. unfold _handleChatMessage, member.
  assert (truthy (VNum now) = true) as Hclock.
  { simpl. apply negb_true_iff, Z.eqb_neq. lia. }
  destruct message as [| | | | | |props]; try discriminate.
  destruct (prop props "type") as [| | | |s| |]; try discriminate.
  do 13 (try next_char s).
  all: intros [= <- <-]; split;
    [rewrite !elem_of_cons; tauto|eexists; split; [reflexivity|]];
    intros key; cbn [defaulted String.eqb Ascii.eqb Bool.eqb];
    rewrite ?elem_of_cons, elem_of_nil;
    intros Hkey; repeat (destruct Hkey as [->|Hkey]); try done;
    cbn [prop String.eqb Ascii.eqb Bool.eqb]; by apply truthy_js_or.
Qed.

Lemma defaulted_fields_are_truthy_witness :
  "chatSubscription"
    ∈ ["chatMessage"; "chatDonation"; "chatSubscription"; "chatNotice"]
  ∧ ∃ fields,
      VObj [("type", VStr "subscription"); ("channelId", VStr "c1");
            ("userId", VStr "u1"); ("nickname", VStr "n"); ("message", VStr "hi");
            ("months", VNum 1); ("tier", VNum 1); ("tierName", VStr "기본 구독");
            ("badges", VArr []); ("timestamp", VNum 1700000000000)]
      = VObj fields
      ∧ ∀ key, key ∈ defaulted "chatSubscription" → truthy (prop fields key) = true.
Proof.
  apply (defaulted_fields_are_truthy (VStr "c1") 1700000000000 subscription_frame).
  - lia.
  - reflexivity.
Defined.

(** A DONATION frame without [currency], [isAnonymous], [badges] and
    [timestamp] gives a [chatDonation] event with currency KRW, not
    anonymous, no badges and the receipt time, and with the [amount] of the
    frame as it came; a NOTICE frame without [noticeType] and [timestamp]
    gives a [chatNotice] event of type NORMAL at the receipt time. *)
Theorem donation_and_notice_defaults (chatChannelId : value) (now : Z)
    (donation notice : list (string * value)) :
  prop donation "type" = VStr "DONATION" →
  prop donation "currency" = VUndefined →
  prop donation "isAnonymous" = VUndefined →
  prop donation "badges" = VUndefined →
  prop donation "timestamp" = VUndefined →
  prop notice "type" = VStr "NOTICE" →
  prop notice "noticeType" = VUndefined →
  prop notice "timestamp" = VUndefined →
  let d := _handleChatMessage chatChannelId now (VObj donation) in
  let n := _handleChatMessage chatChannelId now (VObj notice) in
  (emitted_name d = Some "chatDonation"
   ∧ emitted_field d "currency" = Some (VStr "KRW")
   ∧ emitted_field d "isAnonymous" = Some (VBool false)
   ∧ emitted_field d "badges" = Some (VArr [])
   ∧ emitted_field d "timestamp" = Some (VNum now)
   ∧ emitted_field d "amount" = Some (prop donation "amount"))
  ∧ (emitted_name n = Some "chatNotice"
     ∧ emitted_field n "noticeType" = Some (VStr "NORMAL")
     ∧ emitted_field n "timestamp" = Some (VNum now)
     ∧ emitted_field n "message" = Some (prop notice "content")
     ∧ emitted_field n "channelId" = Some chatChannelId).
Proof.
  intros Hd Hc Ha Hb Ht Hn Hnt Hnts. unfold _handleChatMessage, member.
  rewrite Hd, Hn. cbv zeta. rewrite Hc, Ha, Hb, Ht, Hnt, Hnts.
  repeat split; reflexivity.
Qed.

Lemma donation_and_notice_defaults_witness :
  let d := _handleChatMessage (VStr "c1") 1700000000000 (VObj donation_frame) in
  let n := _handleChatMessage (VStr "c1") 1700000000000 (VObj notice_frame) in
  (emitted_name d = Some "chatDonation"
   ∧ emitted_field d "currency" = Some (VStr "KRW")
   ∧ emitted_field d "isAnonymous" = Some (VBool false)
   ∧ emitted_field d "badges" = Some (VArr [])
   ∧ emitted_field d "timestamp" = Some (VNum 1700000000000)
   ∧ emitted_field d "amount" = Some (prop donation_frame "amount"))
  ∧ (emitted_name n = Some "chatNotice"
     ∧ emitted_field n "noticeType" = Some (VStr "NORMAL")
     ∧ emitted_field n "timestamp" = Some (VNum 1700000000000)
     ∧ emitted_field n "message" = Some (prop notice_frame "content")
     ∧ emitted_field n "channelId" = Some (VStr "c1")).
Proof.
  apply (donation_and_notice_defaults (VStr "c1") 1700000000000
           donation_frame notice_frame); reflexivity.
Defined.

End FrameKindsFacts.

(** * Further properties of the REST layer *)

Module AuthFacts.
Import Rest Auth.

(** Open a world into its fields. *)
Ltac open_world w := destruct w as [[?a ?r ?auto ?ex ?th] ?wi ?cl ?se ?ev].

(** Case analysis on a token that is known to be truthy or not. *)
Ltac by_truthy H :=
  match type of H with
  | truthy ?t = _ => destruct t as [[|? ?]|]; try discriminate H
  end.

(** A failed request is handed to the caller as it is, after one send and
    with nothing else done, unless it is a 401 on a client that refreshes
    and has a refresh token. *)
Theorem other_failures_pass_through (fuel : nat) (w : world) (config : request)
    (status now : Z) (m body : option string) (rest : list (reply * Z)) :
  wire w = (Failed status m body, now) :: rest →
  autoRefreshToken (this w) = false ∨ status ≠ 401
    ∨ truthy (refreshToken (this w)) = false →
  httpClient (S fuel) config w
  = Some (World (this w) rest now (sent w ++ [config]) (events w),
          Throws (AxiosError (Some status) m body)).
Proof.
  intros Hwire Hcase. simpl. rewrite Hwire. cbn [this].
  destruct Hcase as [->|[Hne| ->]].
  - done.
  - apply Z.eqb_neq in Hne. rewrite Hne. by rewrite andb_false_r.
  - by rewrite andb_false_r.
Qed.

Lemma other_failures_pass_through_witness :
  httpClient 1 users_me (with_wire signed_in [(Failed 403 None (Some "{}"), 7)])
  = Some (World (this signed_in) [] 7 (sent signed_in ++ [users_me])
            (events signed_in),
          Throws (AxiosError (Some 403) None (Some "{}"))).
Proof.
  apply (other_failures_pass_through 0
           (with_wire signed_in [(Failed 403 None (Some "{}"), 7)]) users_me 403 7
           None (Some "{}") []).
  - reflexivity.
  - right. left. discriminate.
Defined.

(** When the refresh that a 401 causes is itself refused (with a status
    other than 401), [tokenExpired] is emitted, the caller gets the error of
    the refresh and not the 401, the request is not sent again and the
    tokens stay as they were. *)
Theorem failed_refresh_is_surfaced (fuel : nat) (w : world) (config : request)
    (t1 t2 status : Z) (m1 b1 m2 b2 : option string) (rest : list (reply * Z)) :
  autoRefreshToken (this w) = true →
  truthy (refreshToken (this w)) = true →
  status ≠ 401 →
  wire w = (Failed 401 m1 b1, t1) :: (Failed status m2 b2, t2) :: rest →
  httpClient (S (S fuel)) config w
  = Some (World (this w) rest t2 (sent w ++ [config; token_request])
            (events w ++ [("tokenExpired", t2)]),
          Throws (_handleApiError (AxiosError (Some status) m2 b2)
                    "액세스 토큰 갱신 실패")).
Proof.
  open_world w. simpl. intros -> Href Hne ->. apply Z.eqb_neq in Hne.
  by_truthy Href. unfold httpClient, refreshAccessToken. simpl.
  rewrite Hne. simpl. unfold trigger. simpl. by rewrite <- app_assoc.
Qed.

Lemma failed_refresh_is_surfaced_witness :
  httpClient 2 users_me
    (with_wire signed_in [(Failed 401 None None, 5);
                          (Failed 400 (Some "invalid_grant") (Some "{}"), 6)])
  = Some (World (this signed_in) [] 6 (sent signed_in ++ [users_me; token_request])
            (events signed_in ++ [("tokenExpired", 6)]),
          Throws (_handleApiError (AxiosError (Some 400) (Some "invalid_grant")
                                     (Some "{}"))
                    "액세스 토큰 갱신 실패")).
Proof.
  apply (failed_refresh_is_surfaced 0
           (with_wire signed_in [(Failed 401 None None, 5);
                                 (Failed 400 (Some "invalid_grant") (Some "{}"), 6)])
           users_me 5 6 400 None None (Some "invalid_grant") (Some "{}") []).
  - reflexivity.
  - reflexivity.
  - discriminate.
  - reflexivity.
Defined.

Lemma replicate_snoc {A} (n : nat) (x : A) : replicate n x ++ [x] = x :: replicate n x.
Proof. induction n as [|n IH]; simpl; [done|]. by rewrite IH. Qed.

Lemma token_endpoint_recursion (n fuel : nat) (w : world) (config : request)
    (m b : option string) :
  (n < fuel)%nat →
  autoRefreshToken (this w) = true →
  truthy (refreshToken (this w)) = true →
  wire w = replicate n (Failed 401 m b, clock w) →
  httpClient fuel config w
  = Some (World (this w) [] (clock w) (sent w ++ config :: replicate n token_request)
            (events w ++ replicate n ("tokenExpired", clock w)),
          Throws (refresh_failure n)).
Proof.
  revert fuel w config. induction n as [|n IH]; intros fuel w config Hfuel Hauto Href Hwire.
  - destruct fuel as [|fuel]; [lia|]. simpl in *. rewrite Hwire. simpl.
    by rewrite app_nil_r.
  - destruct fuel as [|fuel]; [lia|]. cbn [httpClient]. rewrite Hwire.
    cbn [replicate]. cbn [this]. rewrite Hauto, Href. cbn [Z.eqb Pos.eqb andb].
    unfold refreshAccessToken. cbn [this]. rewrite Href. cbn [negb].
    rewrite (IH fuel); [|lia|done|done|done].
    cbn [this clock sent events]. unfold trigger. cbn [this clock sent events wire].
    rewrite <- !app_assoc. cbn [app]. by rewrite replicate_snoc.
Qed.

(** The token endpoint is behind the same interceptor as every other
    request: when it answers 401 too, the interceptor starts another refresh
    from inside the refresh.  If the call and then the token endpoint are
    answered 401, [n + 1] times in all, and then nothing comes any more, the
    token endpoint has been called [n + 1] times, [tokenExpired] has been
    emitted [n + 1] times, and the caller gets the network error wrapped
    [n + 1] times in the message of the failed refresh. *)
Theorem refresh_recurs_on_401 (n fuel : nat) (w : world) (config : request)
    (m b : option string) (t : Z) :
  (S n < fuel)%nat →
  autoRefreshToken (this w) = true →
  truthy (refreshToken (this w)) = true →
  wire w = replicate (S n) (Failed 401 m b, t) →
  httpClient fuel config w
  = Some (World (this w) [] t (sent w ++ config :: replicate (S n) token_request)
            (events w ++ replicate (S n) ("tokenExpired", t)),
          Throws (refresh_failure (S n))).
Proof.
  intros Hfuel Hauto Href Hwire.
  pose proof (token_endpoint_recursion (S n) fuel
                (World (this w) (wire w) t (sent w) (events w)) config m b
                Hfuel Hauto Href Hwire) as Hrec.
  cbn [this clock sent events wire] in Hrec. rewrite <- Hrec.
  destruct fuel as [|fuel]; [lia|]. cbn [httpClient wire]. rewrite Hwire.
  reflexivity.
Qed.

Lemma refresh_recurs_on_401_witness :
  httpClient 4 users_me
    (with_wire signed_in (replicate 3 (Failed 401 None None, 9)))
  = Some (World (this signed_in) [] 9
            (sent signed_in ++ users_me :: replicate 3 token_request)
            (events signed_in ++ replicate 3 ("tokenExpired", 9)),
          Throws (refresh_failure 3)).
Proof.
  apply (refresh_recurs_on_401 2 4
           (with_wire signed_in (replicate 3 (Failed 401 None None, 9)))
           users_me None None 9).
  - lia.
  - reflexivity.
  - reflexivity.
  - reflexivity.
Defined.

(** The token check when nothing is due. *)
Lemma not_due_check (fuel : nat) (w : world) :
  ¬ due w →
  _ensureValidToken fuel w
  = Some (w, if truthy (accessToken (this w)) then Returns tt
             else Throws no_access_token).
Proof.
  intros Hnot. unfold _ensureValidToken.
  destruct (truthy (accessToken (this w))) eqn:Ha; simpl; [|done].
  destruct (tokenExpiry (this w)) as [expiry|] eqn:He; [|done].
  destruct (autoRefreshToken (this w)) eqn:Hauto; simpl; [|done].
  destruct (expiry =? 0) eqn:H0; simpl; [done|].
  destruct (truthy (refreshToken (this w))) eqn:Hr; simpl; [|done].
  destruct (expiry <? clock w + tokenRefreshThresholdMs (this w)) eqn:Hlt; [|done].
  exfalso. apply Hnot. unfold due. repeat split; try done.
  exists expiry. apply Z.eqb_neq in H0. apply Z.ltb_lt in Hlt. done.
Qed.

(** [_ensureValidToken] sends nothing unless the token is due for a
    refresh: without an access token it throws at once, and otherwise it
    just returns, in particular on a client that was constructed with
    tokens and so does not know their expiry. *)
Theorem _ensureValidToken_is_local (fuel : nat) (w : world) :
  ¬ due w →
  _ensureValidToken fuel w
  = Some (w, if truthy (accessToken (this w)) then Returns tt
             else Throws no_access_token).
Proof. apply not_due_check. Qed.

Lemma signed_in_not_due : ¬ due signed_in.
Proof. intros (_ & _ & _ & expiry & Hex & _). discriminate Hex. Qed.

Lemma _ensureValidToken_is_local_witness :
  _ensureValidToken 0 signed_in
  = Some (signed_in, if truthy (accessToken (this signed_in)) then Returns tt
                     else Throws no_access_token).
Proof. apply (_ensureValidToken_is_local 0 signed_in). apply signed_in_not_due. Defined.

Lemma due_refresh (fuel : nat) (w : world) (a r : option string) (x : option Z)
    (t : Z) (rest : list (reply * Z)) :
  due w →
  wire w = (Ok (TokenData a r x), t) :: rest →
  _ensureValidToken (S fuel) w
  = Some (World (refreshed_auth t a r x (this w)) rest t
            (sent w ++ [token_request]) (events w),
          Returns tt).
Proof.
  intros (Hauto & Ha & Hr & expiry & Hex & H0 & Hlt) Hwire.
  apply Z.eqb_neq in H0. apply Z.ltb_lt in Hlt.
  unfold _ensureValidToken. rewrite Ha, Hex, Hauto, H0, Hr, Hlt. simpl.
  unfold refreshAccessToken. rewrite Hr. simpl. rewrite Hwire. simpl.
  unfold set_this, refreshed_auth. simpl. by rewrite Hex.
Qed.


Lemma expiring_due : due expiring.
Proof. unfold due. repeat split; try done. exists 1060000. by vm_compute. Qed.


(** A token reply without [expiresIn] (or with 0) leaves the old expiry in
    place, so the token is due again at once: the next call that checks the
    token refreshes again. *)
Theorem refresh_without_expiresIn_stays_due (fuel : nat) (w : world)
    (a r : option string) (x : option Z) (t : Z) (rest : list (reply * Z)) :
  due w →
  wire w = (Ok (TokenData a r x), t) :: rest →
  x = None ∨ x = Some 0 →
  truthy a = true → truthy r = true →
  clock w ≤ t →
  ∃ w', _ensureValidToken (S fuel) w = Some (w', Returns tt)
        ∧ tokenExpiry (this w') = tokenExpiry (this w)
        ∧ due w'.
Proof.
  intros Hdue Hwire Hx Ha Hr Hclock.
  rewrite (due_refresh fuel w a r x t rest Hdue Hwire).
  eexists. split; [reflexivity|].
  destruct Hdue as (Hauto & _ & _ & expiry & Hex & H0 & Hlt).
  assert (refreshed_auth t a r x (this w)
          = Auth a r (autoRefreshToken (this w)) (tokenExpiry (this w))
              (tokenRefreshThresholdMs (this w))) as ->.
  { unfold refreshed_auth. by destruct Hx as [-> | ->]. }
  split; [done|]. unfold due. cbn [this clock autoRefreshToken accessToken
    refreshToken tokenExpiry tokenRefreshThresholdMs].
  repeat split; try done. exists expiry. repeat split; try done. lia.
Qed.

Lemma refresh_without_expiresIn_stays_due_witness :
  ∃ w', _ensureValidToken 1
          (with_wire expiring [(Ok (TokenData (Some "a") (Some "r") None), 1000500)])
        = Some (w', Returns tt)
        ∧ tokenExpiry (this w')
          = tokenExpiry (this (with_wire expiring
                                 [(Ok (TokenData (Some "a") (Some "r") None), 1000500)]))
        ∧ due w'.
Proof.
  apply (refresh_without_expiresIn_stays_due 0
           (with_wire expiring [(Ok (TokenData (Some "a") (Some "r") None), 1000500)])
           (Some "a") (Some "r") None 1000500 []).
  - apply expiring_due.
  - reflexivity.
  - by left.
  - reflexivity.
  - reflexivity.
  - by vm_compute.
Defined.

(** With a token that is not due, [_getChatAccessToken] sends one request,
    which carries the access token, and a 2xx reply gives the chat token if
    it has a non-empty [content.accessToken] and the error of the missing
    chat token otherwise. *)
Theorem _getChatAccessToken_reads_content (fuel : nat) (w : world)
    (channelId : string) (d : data) (t : Z) (rest : list (reply * Z)) :
  ¬ due w →
  truthy (accessToken (this w)) = true →
  wire w = (Ok d, t) :: rest →
  _getChatAccessToken (S fuel) channelId w
  = Some (World (this w) rest t
            (sent w ++ [chat_token_request channelId (accessToken (this w))])
            (events w),
          chat_token_of d).
Proof.
  intros Hnot Ha Hwire. unfold _getChatAccessToken.
  rewrite (not_due_check _ _ Hnot), Ha.
  cbn [httpClient]. rewrite Hwire. unfold chat_token_of, chat_token_request.
  destruct (data_content_accessToken d) as [token|]; [|done].
  by destruct (String.eqb token "").
Qed.

Lemma _getChatAccessToken_reads_content_witness :
  _getChatAccessToken 1 "c1"
    (with_wire signed_in [(Ok (ChatTokenData None), 3)])
  = Some (World (this signed_in) [] 3
            (sent signed_in ++ [chat_token_request "c1" (accessToken (this signed_in))])
            (events signed_in),
          chat_token_of (ChatTokenData None)).
Proof.
  apply (_getChatAccessToken_reads_content 0
           (with_wire signed_in [(Ok (ChatTokenData None), 3)]) "c1"
           (ChatTokenData None) 3 []).
  - intros (_ & _ & _ & expiry & Hex & _). discriminate Hex.
  - reflexivity.
  - reflexivity.
Defined.

(** With a token that is due, [_getChatAccessToken] refreshes first and
    then sends its request with the access token of the token reply,
    whatever that is (also when the reply had none). *)
Theorem _getChatAccessToken_uses_new_token (fuel : nat) (w : world)
    (channelId : string) (a r : option string) (x : option Z) (d : data)
    (t1 t2 : Z) (rest : list (reply * Z)) :
  due w →
  wire w = (Ok (TokenData a r x), t1) :: (Ok d, t2) :: rest →
  _getChatAccessToken (S fuel) channelId w
  = Some (World (refreshed_auth t1 a r x (this w)) rest t2
            (sent w ++ [token_request; chat_token_request channelId a])
            (events w),
          chat_token_of d).
Proof.
  intros Hdue Hwire. unfold _getChatAccessToken.
  rewrite (due_refresh fuel w a r x t1 _ Hdue Hwire).
  cbn [httpClient wire this sent events clock].
  assert (accessToken (refreshed_auth t1 a r x (this w)) = a) as ->.
  { unfold refreshed_auth.
    by destruct (RestFacts._setTokenExpiry_frame t1 x
                   (Auth a r (autoRefreshToken (this w)) (tokenExpiry (this w))
                      (tokenRefreshThresholdMs (this w)))) as (_ & _ & ->). }
  unfold chat_token_of, chat_token_request. rewrite <- app_assoc. cbn [app].
  destruct (data_content_accessToken d) as [token|]; [|done].
  by destruct (String.eqb token "").
Qed.

Lemma _getChatAccessToken_uses_new_token_witness :
  _getChatAccessToken 1 "c1"
    (with_wire expiring [(Ok (TokenData (Some "a") (Some "r") (Some 3600)), 1000500);
                         (Ok (ChatTokenData (Some "chat")), 1000600)])
  = Some (World (refreshed_auth 1000500 (Some "a") (Some "r") (Some 3600)
                   (this expiring)) [] 1000600
            (sent expiring ++ [token_request; chat_token_request "c1" (Some "a")])
            (events expiring),
          chat_token_of (ChatTokenData (Some "chat"))).
Proof.
  apply (_getChatAccessToken_uses_new_token 0
           (with_wire expiring
              [(Ok (TokenData (Some "a") (Some "r") (Some 3600)), 1000500);
               (Ok (ChatTokenData (Some "chat")), 1000600)])
           "c1" (Some "a") (Some "r") (Some 3600) (ChatTokenData (Some "chat"))
           1000500 1000600 []).
  - apply expiring_due.
  - reflexivity.
Defined.

(** [revokeToken] forgets a token only when the hint names its kind and the
    argument is the stored token.  After a successful revoke of the stored
    access token the access token is empty and the expiry unknown, and the
    next token check fails without a request.  With the hint
    [access_token], which is the default, any other argument, the stored
    refresh token included, leaves the client as it was. *)
Theorem revokeToken_forgets_on_match (fuel : nat) (w : world) (token : option string)
    (tokenTypeHint : string) (d : data) (t : Z) (rest : list (reply * Z)) :
  wire w = (Ok d, t) :: rest →
  ∃ a', revokeToken (S fuel) token tokenTypeHint w
        = Some (World a' rest t (sent w ++ [revoke_request]) (events w), Returns d)
    ∧ (tokenTypeHint = "access_token" → token = accessToken (this w) →
       a' = Auth (Some "") (refreshToken (this w)) (autoRefreshToken (this w)) None
              (tokenRefreshThresholdMs (this w))
       ∧ ∀ fuel' w', this w' = a' →
           _ensureValidToken fuel' w' = Some (w', Throws no_access_token))
    ∧ (tokenTypeHint = "access_token" → token ≠ accessToken (this w) → a' = this w)
    ∧ (tokenTypeHint = "refresh_token" → token = refreshToken (this w) →
       a' = Auth (accessToken (this w)) (Some "") (autoRefreshToken (this w))
              (tokenExpiry (this w)) (tokenRefreshThresholdMs (this w)))
    ∧ (tokenTypeHint = "refresh_token" → token ≠ refreshToken (this w) → a' = this w)
    ∧ (tokenTypeHint ≠ "access_token" → tokenTypeHint ≠ "refresh_token" →
       a' = this w).
Proof.
  intros Hwire. unfold revokeToken. cbn [httpClient]. rewrite Hwire.
  cbn [this]. eexists. split; [reflexivity|].
  split; [|split; [|split; [|split]]].
  - intros -> ->. rewrite bool_decide_eq_true_2 by done. split; [done|].
    intros fuel' w' Hw'. unfold _ensureValidToken. rewrite Hw'. done.
  - intros -> Hne. by rewrite bool_decide_eq_false_2.
  - intros -> ->. cbn [String.eqb Ascii.eqb Bool.eqb andb].
    by rewrite bool_decide_eq_true_2.
  - intros -> Hne. cbn [String.eqb Ascii.eqb Bool.eqb andb].
    by rewrite bool_decide_eq_false_2.
  - intros H1 H2. apply String.eqb_neq in H1, H2. by rewrite H1, H2.
Qed.

Lemma revokeToken_forgets_on_match_witness :
  ∃ a', revokeToken 1 (Some "refresh0") "access_token"
          (with_wire signed_in [(Ok (OtherData 0), 4)])
        = Some (World a' [] 4 (sent signed_in ++ [revoke_request]) (events signed_in),
                Returns (OtherData 0))
    ∧ ("access_token" = "access_token" →
       Some "refresh0" = accessToken (this signed_in) →
       a' = Auth (Some "") (refreshToken (this signed_in))
              (autoRefreshToken (this signed_in)) None
              (tokenRefreshThresholdMs (this signed_in))
       ∧ ∀ fuel' w', this w' = a' →
           _ensureValidToken fuel' w' = Some (w', Throws no_access_token))
    ∧ ("access_token" = "access_token" →
       Some "refresh0" ≠ accessToken (this signed_in) → a' = this signed_in)
    ∧ ("access_token" = "refresh_token" →
       Some "refresh0" = refreshToken (this signed_in) →
       a' = Auth (accessToken (this signed_in)) (Some "")
              (autoRefreshToken (this signed_in)) (tokenExpiry (this signed_in))
              (tokenRefreshThresholdMs (this signed_in)))
    ∧ ("access_token" = "refresh_token" →
       Some "refresh0" ≠ refreshToken (this signed_in) → a' = this signed_in)
    ∧ ("access_token" ≠ "access_token" → "access_token" ≠ "refresh_token" →
       a' = this signed_in).
Proof.
  apply (revokeToken_forgets_on_match 0
           (with_wire signed_in [(Ok (OtherData 0), 4)]) (Some "refresh0")
           "access_token" (OtherData 0) 4 []).
  reflexivity.
Defined.

(** [followChannel] checks the token before its argument: with an empty
    channel id and a token that is due it first refreshes the token, and
    only then fails for the missing channel id, without a follow request;
    and without an access token the error is the one of the missing token,
    whatever the channel id. *)
Theorem followChannel_checks_token_first (fuel : nat) (w : world)
    (a r : option string) (x : option Z) (t : Z) (rest : list (reply * Z)) :
  due w →
  wire w = (Ok (TokenData a r x), t) :: rest →
  followChannel (S fuel) "" w
  = Some (World (refreshed_auth t a r x (this w)) rest t
            (sent w ++ [token_request]) (events w),
          Throws (Error "채널 ID가 필요합니다."))
  ∧ ∀ fuel' w' channelId,
      truthy (accessToken (this w')) = false →
      followChannel fuel' channelId w' = Some (w', Throws no_access_token).
Proof.
  intros Hdue Hwire. split.
  - unfold followChannel. by rewrite (due_refresh fuel w a r x t rest Hdue Hwire).
  - intros fuel' w' channelId Ha. unfold followChannel, _ensureValidToken.
    by rewrite Ha.
Qed.

Lemma followChannel_checks_token_first_witness :
  followChannel 1 ""
    (with_wire expiring [(Ok (TokenData (Some "a") (Some "r") (Some 3600)), 1000500)])
  = Some (World (refreshed_auth 1000500 (Some "a") (Some "r") (Some 3600)
                   (this expiring)) [] 1000500
            (sent expiring ++ [token_request]) (events expiring),
          Throws (Error "채널 ID가 필요합니다."))
  ∧ ∀ fuel' w' channelId,
      truthy (accessToken (this w')) = false →
      followChannel fuel' channelId w' = Some (w', Throws no_access_token).
Proof.
  apply (followChannel_checks_token_first 0
           (with_wire expiring
              [(Ok (TokenData (Some "a") (Some "r") (Some 3600)), 1000500)])
           (Some "a") (Some "r") (Some 3600) 1000500 []).
  - apply expiring_due.
  - reflexivity.
Defined.



End AuthFacts.

(** * Further properties of the chat session *)

Module SessionFacts.
Import Chat Session.

(** Open a world into its fields. *)
Ltac open_world w :=
  destruct w as [[?cs ?cc ?hb ?ra ?mx] ?sks ?ivs ?tms ?prs ?fe ?trs ?se ?em].

(** *** The invariant is kept by every callback *)

Lemma invariant_ext (w w' : world) :
  this w' = this w → timers w' = timers w → sockets w' = sockets w →
  fetching w' = fetching w → intervals w' = intervals w →
  invariant w → invariant w'.
Proof. unfold invariant. by intros -> -> -> -> ->. Qed.

Lemma invariant_settle (call : nat) (r : promise) (w : world) :
  invariant w → invariant (settle call r w).
Proof.
  unfold settle. by destruct (promises w !! call) as [[| |]|].
Qed.

Lemma invariant__triggerEvent (e : event) (w : world) :
  invariant w → invariant (_triggerEvent e w).
Proof. apply invariant_ext; by open_world w. Qed.

Lemma invariant__stopChatHeartbeat (w : world) :
  invariant w →
  invariant (_stopChatHeartbeat w)
  ∧ ∀ i, intervals (_stopChatHeartbeat w) !! i ≠ Some true.
Proof.
  intros (Hmx & Hra & Htm & Hsk & Hfe & Hhb). open_world w. simpl in *.
  unfold _stopChatHeartbeat. simpl. destruct hb as [j|]; simpl.
  - assert (∀ i, <[j:=false]> ivs !! i ≠ Some true) as Hnone.
    { intros i Hi. destruct (decide (i = j)) as [->|Hne].
      - destruct (decide (j < length ivs)%nat).
        + rewrite list_lookup_insert_eq in Hi by done. discriminate.
        + rewrite list_insert_ge in Hi by lia. apply lookup_lt_Some in Hi. lia.
      - rewrite list_lookup_insert_ne in Hi by done. apply Hhb in Hi. congruence. }
    split; [|done]. unfold invariant. simpl. repeat split; try done.
    intros i Hi. by apply Hnone in Hi.
  - split; [done|]. intros i Hi. apply Hhb in Hi. discriminate.
Qed.

Lemma invariant__startChatHeartbeat (w : world) :
  invariant w → invariant (_startChatHeartbeat w).
Proof.
  intros Hinv. destruct (invariant__stopChatHeartbeat w Hinv) as [Hinv1 Hnone].
  unfold _startChatHeartbeat. set (w1 := _stopChatHeartbeat w) in *.
  destruct Hinv1 as (Hmx & Hra & Htm & Hsk & Hfe & _). open_world w1. simpl in *.
  unfold invariant. simpl. repeat split; try done.
  intros i Hi. destruct (decide (i < length ivs)%nat).
  - rewrite lookup_app_l in Hi by done. by apply Hnone in Hi.
  - apply lookup_lt_Some in Hi as Hlt. rewrite length_app in Hlt. simpl in Hlt.
    f_equal. lia.
Qed.

Lemma invariant__cleanupChatConnection (w : world) :
  invariant w →
  invariant (_cleanupChatConnection w)
  ∧ chatReconnectAttempts (this (_cleanupChatConnection w)) = 0
  ∧ ∀ i, intervals (_cleanupChatConnection w) !! i ≠ Some true.
Proof.
  intros Hinv. destruct (invariant__stopChatHeartbeat w Hinv) as [Hinv1 Hnone].
  unfold _cleanupChatConnection. set (w1 := _stopChatHeartbeat w) in *.
  destruct Hinv1 as (Hmx & Hra & Htm & Hsk & Hfe & Hhb). open_world w1. simpl in *.
  unfold invariant. simpl. repeat split; try done. by left.
Qed.

Lemma invariant_modify_socket (s : nat) (f : socket → socket) (w : world) :
  (∀ sk, socket_ok sk → socket_ok (f sk)) →
  invariant w → invariant (modify_socket s f w).
Proof.
  intros Hf (Hmx & Hra & Htm & Hsk & Hfe & Hhb). unfold modify_socket.
  destruct (sockets w !! s) as [sk|] eqn:Hs; [|done].
  open_world w. simpl in *. unfold invariant. simpl. repeat split; try done.
  apply Forall_insert; [done|]. apply Hf. by eapply Forall_lookup_1.
Qed.

Lemma invariant_set_readyState (s : nat) (r : ready_state) (w : world) :
  invariant w → invariant (set_readyState s r w).
Proof. apply invariant_modify_socket. by intros sk [? ?]. Qed.

Lemma invariant_set_onclose (s : nat) (k : awaiter) (w : world) :
  awaiter_ok k → invariant w → invariant (set_onclose s (OnCloseOfDisconnect k) w).
Proof. intros Hk. apply invariant_modify_socket. by intros sk [? ?]. Qed.

Lemma invariant_set_chatSocket (v : option nat) (w : world) :
  invariant w → invariant (set_chatSocket v w).
Proof. by open_world w. Qed.

Lemma invariant_connectChat_resumed (call : nat) (channelId : string) (w : world) :
  channelId ≠ "" → invariant w → invariant (connectChat_resumed call channelId w).
Proof.
  intros Hch (Hmx & Hra & Htm & Hsk & Hfe & Hhb). open_world w. simpl in *.
  unfold invariant. simpl. repeat split; try done. by apply map_Forall_insert_2.
Qed.

Lemma invariant_resume (k : awaiter) (w : world) :
  awaiter_ok k → invariant w → invariant (resume k w).
Proof.
  destruct k as [call|call channelId]; simpl; intros Hk.
  - apply invariant_settle.
  - by apply invariant_connectChat_resumed.
Qed.

Lemma invariant_disconnectChat (k : awaiter) (w : world) :
  awaiter_ok k → invariant w → invariant (disconnectChat k w).
Proof.
  intros Hk Hinv. unfold disconnectChat.
  destruct (chatSocket (this w)) as [s|]; [|by apply invariant_resume].
  destruct (invariant__cleanupChatConnection w Hinv) as (Hinv1 & _).
  destruct (chatSocket_open (_cleanupChatConnection w)).
  - by apply invariant_set_readyState, invariant_set_onclose.
  - by apply invariant_resume, invariant_set_chatSocket.
Qed.

Lemma invariant_set_promises (v : list promise) (w : world) :
  invariant w → invariant (set_promises v w).
Proof. apply invariant_ext; by open_world w. Qed.

Lemma invariant_connectChat (channelId : string) (w : world) :
  invariant w → invariant (connectChat channelId w).
Proof.
  intros Hinv. unfold connectChat.
  destruct (String.eqb channelId "") eqn:Hch.
  - by apply invariant_settle, invariant_set_promises.
  - apply String.eqb_neq in Hch.
    destruct (chatSocket (this (set_promises (promises w ++ [Pending]) w))).
    + by apply invariant_disconnectChat, invariant_set_promises.
    + by apply invariant_connectChat_resumed, invariant_set_promises.
Qed.

Lemma invariant_connectChat_fetched (call : nat) (channelId : string)
    (result : completion string) (ws : completion unit) (w : world) :
  channelId ≠ "" → invariant w →
  invariant (connectChat_fetched call channelId result ws w).
Proof.
  intros Hch Hinv. unfold connectChat_fetched.
  destruct result as [token|e]; [|by apply invariant_settle].
  destruct ws as [[]|e]; [|by apply invariant_settle].
  destruct Hinv as (Hmx & Hra & Htm & Hsk & Hfe & Hhb). open_world w. simpl in *.
  unfold invariant. simpl. repeat split; try done.
  apply Forall_app. split; [done|]. by repeat constructor.
Qed.

Lemma invariant_set_sent (v : list (nat * frame)) (w : world) :
  invariant w → invariant (set_sent v w).
Proof. apply invariant_ext; by open_world w. Qed.

Lemma invariant_onopen (sk : socket) (w : world) :
  invariant w → invariant (onopen sk w).
Proof.
  intros Hinv. unfold onopen.
  apply invariant_settle, invariant__triggerEvent, invariant__startChatHeartbeat.
  unfold _sendChatAuthMessage. destruct (chatSocket_open w); [|done].
  by apply invariant_set_sent.
Qed.

Lemma invariant_onclose_of_connect (sk : socket) (code : Z) (reason : string)
    (w : world) :
  socket_ok sk → invariant w → invariant (onclose_of_connect sk code reason w).
Proof.
  intros [Hch _] Hinv.
  destruct (invariant__cleanupChatConnection w Hinv)
    as ((Hmx & Hra & Htm & Hsk & Hfe & Hhb) & Hzero & _).
  unfold onclose_of_connect, _triggerEvent.
  remember (_cleanupChatConnection w) as w0 eqn:Hw0. clear Hw0 Hinv.
  open_world w0. simpl in *. subst. simpl.
  unfold invariant. simpl. repeat split; try done; [by right|].
  apply Forall_app. split; [done|]. by repeat constructor.
Qed.

Lemma invariant_onmessage (data : string) (parsed : completion Frames.value)
    (now : Z) (w : world) :
  invariant w → invariant (onmessage data parsed now w).
Proof.
  intros Hinv. unfold onmessage.
  destruct parsed as [message|e]; [|by apply invariant__triggerEvent].
  destruct (Frames._handleChatMessage _ now message) as [[[n d]|]|e];
    try done; by apply invariant__triggerEvent.
Qed.

Lemma invariant_set_timers_fired (t : nat) (tm : timer) (w : world) :
  timers w !! t = Some tm →
  invariant w →
  invariant (set_timers (<[t := Timer (delay tm) (timer_channelId tm) false]>
                           (timers w)) w)
  ∧ timer_channelId tm ≠ "".
Proof.
  intros Ht (Hmx & Hra & Htm & Hsk & Hfe & Hhb).
  pose proof (Forall_lookup_1 _ _ _ _ Htm Ht) as [Hd Hc].
  split; [|done]. open_world w. simpl in *. unfold invariant. simpl.
  repeat split; try done. by apply Forall_insert.
Qed.

Lemma invariant_step (w : world) (i : input) : invariant w → invariant (step w i).
Proof.
  intros Hinv. destruct i as [ch| |call result ws|s|s code reason|s e|s d p now|t|j];
    simpl.
  - by apply invariant_connectChat.
  - by apply invariant_disconnectChat, invariant_set_promises.
  - destruct (fetching w !! call) as [ch|] eqn:Hf; [|done].
    apply invariant_connectChat_fetched.
    + destruct Hinv as (_ & _ & _ & _ & Hfe & _). by apply (Hfe call ch).
    + destruct Hinv as (Hmx & Hra & Htm & Hsk & Hfe & Hhb). open_world w. simpl in *.
      unfold invariant. simpl. repeat split; try done. by apply map_Forall_delete.
  - destruct (sockets w !! s) as [sk|]; [|done].
    destruct (is_CONNECTING (readyState sk)); [|done].
    by apply invariant_onopen, invariant_set_readyState.
  - destruct (sockets w !! s) as [sk|] eqn:Hs; [|done].
    assert (socket_ok sk) as Hok.
    { destruct Hinv as (_ & _ & _ & Hsk & _). by eapply Forall_lookup_1. }
    destruct (onclose sk) as [|k] eqn:Hoc.
    + by apply invariant_onclose_of_connect, invariant_set_readyState.
    + unfold onclose_of_disconnect. apply invariant_resume.
      * destruct Hok as [_ Hk]. by rewrite Hoc in Hk.
      * by apply invariant_set_chatSocket, invariant_set_readyState.
  - destruct (sockets w !! s) as [sk|]; [|done].
    unfold onerror. by apply invariant_settle, invariant__triggerEvent,
      invariant_set_readyState.
  - destruct (sockets w !! s); [|done]. by apply invariant_onmessage.
  - destruct (timers w !! t) as [tm|] eqn:Ht; [|done].
    destruct (waiting tm); [|done].
    destruct (invariant_set_timers_fired t tm w Ht Hinv) as [Hinv1 _].
    by apply invariant_connectChat.
  - destruct (intervals w !! j) as [[|]|]; try done.
    unfold heartbeat. destruct (chatSocket_open w); [|done].
    by apply invariant_set_sent.
Qed.

Lemma reachable_invariant (w : world) : reachable w → invariant w.
Proof.
  induction 1 as [|w i _ IH]; [|by apply invariant_step].
  unfold invariant, constructor. simpl.
  repeat split; try done; try (by left); try apply map_Forall_empty.
Qed.

(** *** What holds in every reachable world *)

(** The reconnect delay never grows: in every world that the client can get
    into, the reconnect counter is 0 or 1 and every reconnect timer that was
    ever made has a delay of 2000 ms and a channel id that is not empty. *)
Theorem reconnect_delay_is_always_2s (w : world) :
  reachable w →
  (chatReconnectAttempts (this w) = 0 ∨ chatReconnectAttempts (this w) = 1)
  ∧ chatMaxReconnectAttempts (this w) = 5
  ∧ ∀ t tm, timers w !! t = Some tm → delay tm = 2000 ∧ timer_channelId tm ≠ "".
Proof.
  intros Hreach. destruct (reachable_invariant w Hreach) as (Hmx & Hra & Htm & _).
  split; [done|]. split; [done|]. intros t tm Ht.
  by destruct (Forall_lookup_1 _ _ _ _ Htm Ht).
Qed.

Lemma reachable_run (w : world) (inputs : list input) :
  reachable w → reachable (run w inputs).
Proof.
  unfold run. revert w. induction inputs as [|i inputs IH]; intros w Hw; [done|].
  simpl. apply IH. by apply reach_step.
Qed.

Lemma connected_reachable : reachable connected.
Proof. apply reachable_run, reach_constructor. Qed.

Lemma five_closures_reachable : reachable five_closures.
Proof. apply reachable_run, connected_reachable. Qed.

Lemma reconnect_delay_is_always_2s_witness :
  (chatReconnectAttempts (this five_closures) = 0
   ∨ chatReconnectAttempts (this five_closures) = 1)
  ∧ chatMaxReconnectAttempts (this five_closures) = 5
  ∧ ∀ t tm, timers five_closures !! t = Some tm →
            delay tm = 2000 ∧ timer_channelId tm ≠ "".
Proof.
  apply (reconnect_delay_is_always_2s five_closures). apply five_closures_reachable.
Defined.

(** There is never more than one heartbeat: in every reachable world at most
    one interval is active, and it is the one that [chatHeartbeatInterval]
    holds. *)
Theorem at_most_one_heartbeat (w : world) (i j : nat) :
  reachable w →
  intervals w !! i = Some true →
  intervals w !! j = Some true →
  i = j ∧ chatHeartbeatInterval (this w) = Some i.
Proof.
  intros Hreach Hi Hj.
  destruct (reachable_invariant w Hreach) as (_ & _ & _ & _ & _ & Hhb).
  pose proof (Hhb i Hi) as Hi'. pose proof (Hhb j Hj) as Hj'.
  split; [congruence|done].
Qed.

Lemma at_most_one_heartbeat_witness :
  0%nat = 0%nat ∧ chatHeartbeatInterval (this connected) = Some 0%nat.
Proof.
  apply (at_most_one_heartbeat connected 0 0).
  - apply connected_reachable.
  - reflexivity.
  - reflexivity.
Defined.

(** *** Single callbacks *)

Lemma lookup_snoc {A} (l : list A) (x : A) : (l ++ [x]) !! length l = Some x.
Proof. rewrite lookup_app_r by done. by rewrite Nat.sub_diag. Qed.

Lemma insert_snoc {A} (l : list A) (x y : A) : <[length l := y]> (l ++ [x]) = l ++ [y].
Proof. rewrite insert_app_r_alt by done. by rewrite Nat.sub_diag. Qed.

(** [connectChat] without a channel id rejects its promise and does nothing
    else: a session that is there is not torn down. *)
Theorem connectChat_without_id_only_rejects (w : world) :
  step w (CallConnectChat "")
  = set_promises (promises w ++ [Rejected (Error "채널 ID가 필요합니다.")]) w.
Proof.
  open_world w. simpl. unfold connectChat, settle. simpl.
  by rewrite lookup_snoc, insert_snoc.
Qed.



Lemma set_emitted_same (w : world) : set_emitted (emitted w ++ []) w = w.
Proof. open_world w. unfold set_emitted. simpl. by rewrite app_nil_r. Qed.

(** A message from the socket does nothing but emit at most one event: it
    never touches the session, the sockets, the timers or the promises.
    When the payload does not parse, or parses to [null], the event is a
    [chatError] that carries the raw payload. *)
Theorem inbound_message_only_emits (w : world) (s : nat) (sk : socket)
    (data : string) (parsed : completion Frames.value) (now : Z) :
  sockets w !! s = Some sk →
  ∃ es, (length es ≤ 1)%nat
        ∧ step w (WsMessage s data parsed now) = set_emitted (emitted w ++ es) w
        ∧ match parsed with
          | Throws e => es = [chatError e (Some data)]
          | Returns Frames.VNull => ∃ e, es = [chatError e (Some data)]
          | Returns _ => True
          end.
Proof.
  intros Hs. simpl. rewrite Hs. unfold onmessage, _triggerEvent.
  destruct parsed as [message|e].
  - destruct (Frames._handleChatMessage _ now message) as [[[n d]|]|e] eqn:Hh.
    + exists [chatInbound n d]. split; [simpl; lia|]. split; [done|].
      by destruct message.
    + exists []. rewrite set_emitted_same. split; [simpl; lia|]. split; [done|].
      by destruct message.
    + exists [chatError e (Some data)]. split; [simpl; lia|]. split; [done|].
      destruct message; eauto.
  - exists [chatError e (Some data)]. split; [simpl; lia|]. done.
Qed.

Lemma inbound_message_only_emits_witness :
  ∃ es, (length es ≤ 1)%nat
        ∧ step connected (WsMessage 0 "{oops" (Throws (Error "Unexpected token")) 5)
          = set_emitted (emitted connected ++ es) connected
        ∧ es = [chatError (Error "Unexpected token") (Some "{oops")].
Proof.
  apply (inbound_message_only_emits connected 0
           (Socket OPEN OnCloseOfConnect "c1" "token" 0) "{oops"
           (Throws (Error "Unexpected token")) 5).
  reflexivity.
Defined.

Lemma onclose_of_connect_frame (sk : socket) (code : Z) (reason : string)
    (w : world) :
  invariant w →
  let w' := onclose_of_connect sk code reason w in
  chatSocket (this w') = chatSocket (this w)
  ∧ chatChannelId (this w') = chatChannelId (this w)
  ∧ chatHeartbeatInterval (this w') = None
  ∧ emitted w' = emitted w ++ [chatDisconnected (sock_channelId sk) code reason]
  ∧ sent w' = sent w
  ∧ ∀ i, intervals w' !! i ≠ Some true.
Proof.
  intros Hinv.
  destruct (invariant__cleanupChatConnection w Hinv)
    as ((Hmx & _) & Hzero & Hnone).
  destruct (ChatFacts._cleanupChatConnection_spec w)
    as (_ & Hhb & Hcs & Hcc & _ & _ & _ & _ & _ & _ & Hse & Hem & _).
  cbn zeta in *. unfold onclose_of_connect, _triggerEvent.
  remember (_cleanupChatConnection w) as w0 eqn:Hw0. clear Hw0 Hinv.
  open_world w0. simpl in *. subst. simpl. done.
Qed.

(** When the server closes the socket, [chatDisconnected] is emitted with
    the channel of that socket and the code and reason of the close event,
    and the heartbeat is stopped: no interval tick after that sends
    anything.  [chatSocket] is left as it was, so it goes on holding the
    closed socket. *)
Theorem server_close_stops_heartbeat (w : world) (s : nat) (sk : socket)
    (code : Z) (reason : string) (j : nat) :
  reachable w →
  sockets w !! s = Some sk →
  onclose sk = OnCloseOfConnect →
  let w' := step w (WsClose s code reason) in
  emitted w' = emitted w ++ [chatDisconnected (sock_channelId sk) code reason]
  ∧ chatHeartbeatInterval (this w') = None
  ∧ chatSocket (this w') = chatSocket (this w)
  ∧ (readyState <$> sockets w' !! s) = Some CLOSED
  ∧ step w' (IntervalFires j) = w'.
Proof.
  intros Hreach Hs Hoc. cbn zeta.
  rewrite (ChatFacts.step_WsClose _ _ _ _ _ Hs), Hoc.
  pose proof (invariant_set_readyState s CLOSED w (reachable_invariant w Hreach))
    as Hinv.
  destruct (onclose_of_connect_frame sk code reason _ Hinv)
    as (Hcs & _ & Hhb & Hem & _ & Hnone).
  destruct (ChatFacts.set_readyState_frame s CLOSED w) as (Ht & _ & _ & Hem' & _).
  pose proof (ChatFacts.set_readyState_lookup s CLOSED w sk Hs) as Hlk.
  set (w0 := set_readyState s CLOSED w) in *.
  set (w' := onclose_of_connect sk code reason w0) in *.
  repeat split.
  - by rewrite Hem, Hem'.
  - done.
  - by rewrite Hcs, Ht.
  - assert (sockets w' = sockets w0) as ->; [|by rewrite Hlk].
    subst w'. unfold onclose_of_connect, _triggerEvent, _cleanupChatConnection,
      _stopChatHeartbeat.
    open_world w0. simpl. destruct hb; simpl; by destruct (0 <? mx).
  - simpl. pose proof (Hnone j) as Hj. by destruct (intervals w' !! j) as [[|]|].
Qed.

Lemma server_close_stops_heartbeat_witness :
  let w' := step connected (WsClose 0 1006 "gone") in
  emitted w' = emitted connected ++ [chatDisconnected "c1" 1006 "gone"]
  ∧ chatHeartbeatInterval (this w') = None
  ∧ chatSocket (this w') = chatSocket (this connected)
  ∧ (readyState <$> sockets w' !! 0%nat) = Some CLOSED
  ∧ step w' (IntervalFires 0) = w'.
Proof.
  apply (server_close_stops_heartbeat connected 0
           (Socket OPEN OnCloseOfConnect "c1" "token" 0) 1006 "gone" 0).
  - apply connected_reachable.
  - reflexivity.
  - reflexivity.
Defined.

Lemma step_WsOpen (w : world) (s : nat) (sk : socket) :
  sockets w !! s = Some sk →
  readyState sk = CONNECTING →
  step w (WsOpen s) = onopen sk (set_readyState s OPEN w).
Proof. intros Hs Hr. simpl. by rewrite Hs, Hr. Qed.

(** What [onopen] changes. *)
Lemma onopen_frame (sk : socket) (w : world) :
  let w' := onopen sk w in
  sent w' = match chatSocket_open w with
            | Some s => sent w ++ [(s, AUTH (sock_token sk) (chatChannelId (this w)))]
            | None => sent w
            end
  ∧ emitted w' = emitted w ++ [chatConnected (sock_channelId sk)]
  ∧ chatSocket (this w') = chatSocket (this w)
  ∧ sockets w' = sockets w
  ∧ (promises w !! sock_call sk = Some Pending →
     promises w' !! sock_call sk = Some Resolved)
  ∧ ∃ i, chatHeartbeatInterval (this w') = Some i ∧ intervals w' !! i = Some true.
Proof.
  cbn zeta. unfold onopen.
  match goal with
  | |- context [settle ?c ?r ?w0] =>
      destruct (ChatFacts.settle_frame c r w0) as (Ht & Hsk & _ & Hem & _);
      pose proof (ChatFacts.settle_pending c r w0) as Hp;
      assert (sent (settle c r w0) = sent w0) as Hse
        by (unfold settle; by destruct (promises w0 !! c) as [[| |]|]);
      assert (intervals (settle c r w0) = intervals w0) as Hiv
        by (unfold settle; by destruct (promises w0 !! c) as [[| |]|])
  end.
  rewrite Ht, Hsk, Hem, Hse, Hiv. clear Ht Hsk Hem Hse Hiv.
  unfold _triggerEvent, _startChatHeartbeat, _stopChatHeartbeat,
    _sendChatAuthMessage in *.
  destruct (chatSocket_open w) as [s|]; open_world w; simpl in *;
    destruct hb as [i|]; simpl in *; repeat split; try done;
    eexists; (split; [done|]);
    rewrite lookup_app_r by done; by rewrite Nat.sub_diag.
Qed.

(** When the token has arrived and the new socket opens, the client sends
    one AUTH frame on it, with the token and with the channel id that
    [chatChannelId] holds at that moment, emits one [chatConnected] for the
    channel of the call, has a heartbeat running and resolves the call. *)
Theorem open_authenticates (w : world) (call : nat) (channelId token : string) :
  fetching w !! call = Some channelId →
  promises w !! call = Some Pending →
  let s := length (sockets w) in
  let w2 := run w [TokenFetched call (Returns token) (Returns tt); WsOpen s] in
  sent w2 = sent w ++ [(s, AUTH token (chatChannelId (this w)))]
  ∧ emitted w2 = emitted w ++ [chatConnected channelId]
  ∧ chatSocket (this w2) = Some s
  ∧ (readyState <$> sockets w2 !! s) = Some OPEN
  ∧ promises w2 !! call = Some Resolved
  ∧ ∃ i, chatHeartbeatInterval (this w2) = Some i ∧ intervals w2 !! i = Some true.
Proof.
  intros Hf Hp. cbn zeta.
  set (sk := Socket CONNECTING OnCloseOfConnect channelId token call).
  set (w1 := set_chatSocket (Some (length (sockets w)))
               (set_sockets (sockets w ++ [sk])
                  (set_fetching (delete call (fetching w)) w))).
  assert (sockets w1 !! length (sockets w) = Some sk
          → run w [TokenFetched call (Returns token) (Returns tt);
                   WsOpen (length (sockets w))]
            = onopen sk (set_readyState (length (sockets w)) OPEN w1)) as Hrun.
  { intros Hs1.
    change (run w [TokenFetched call (Returns token) (Returns tt);
                   WsOpen (length (sockets w))])
      with (step (step w (TokenFetched call (Returns token) (Returns tt)))
              (WsOpen (length (sockets w)))).
    rewrite (ChatFacts.step_TokenFetched _ _ _ _ _ Hf).
    change (connectChat_fetched call channelId (Returns token) (Returns tt)
              (set_fetching (delete call (fetching w)) w)) with w1.
    by apply step_WsOpen. }
  assert (sockets w1 !! length (sockets w) = Some sk) as Hs1.
  { subst w1. open_world w. simpl. apply lookup_snoc. }
  rewrite (Hrun Hs1). clear Hrun.
  pose proof (ChatFacts.set_readyState_lookup _ OPEN _ _ Hs1) as Hs2.
  destruct (ChatFacts.set_readyState_frame (length (sockets w)) OPEN w1)
    as (Ht & _ & Hpr & Hem & _).
  assert (sent (set_readyState (length (sockets w)) OPEN w1) = sent w1) as Hse.
  { unfold set_readyState.
    destruct (ChatFacts.modify_socket_is_set_sockets (length (sockets w))
                (λ sk0, Socket OPEN (onclose sk0) (sock_channelId sk0) (sock_token sk0)
                          (sock_call sk0)) w1) as (l & -> & _).
    by destruct w1. }
  set (w2 := set_readyState (length (sockets w)) OPEN w1) in *.
  assert (chatSocket_open w2 = Some (length (sockets w))) as Hopen.
  { assert (chatSocket (this w1) = Some (length (sockets w))) as Hcs1
      by (subst w1; by open_world w).
    unfold chatSocket_open. by rewrite Ht, Hcs1, Hs2. }
  destruct (onopen_frame sk w2) as (Hsent & Hemit & Hcs & Hsk & Hres & Hhb).
  rewrite Hopen in Hsent.
  rewrite Hsent, Hemit, Hcs, Hsk, Hs2, Hse, Hem, Ht.
  repeat split; try done.
  apply Hres. rewrite Hpr. subst w1. by open_world w.
Qed.

Lemma open_authenticates_witness :
  let w := run constructor [CallConnectChat "c1"] in
  let s := length (sockets w) in
  let w2 := run w [TokenFetched 0 (Returns "token") (Returns tt); WsOpen s] in
  sent w2 = sent w ++ [(s, AUTH "token" (chatChannelId (this w)))]
  ∧ emitted w2 = emitted w ++ [chatConnected "c1"]
  ∧ chatSocket (this w2) = Some s
  ∧ (readyState <$> sockets w2 !! s) = Some OPEN
  ∧ promises w2 !! 0%nat = Some Resolved
  ∧ ∃ i, chatHeartbeatInterval (this w2) = Some i ∧ intervals w2 !! i = Some true.
Proof.
  apply (open_authenticates (run constructor [CallConnectChat "c1"]) 0 "c1" "token").
  - reflexivity.
  - reflexivity.
Defined.

(** [disconnectChat()] on a client whose socket is open: once the close
    event has come, the promise is resolved, [chatSocket] is null, the
    heartbeat is stopped and the counter is 0; no [chatDisconnected] event
    was emitted and no reconnect was scheduled.  On a client without a
    socket the call resolves at once and changes nothing else. *)
Theorem disconnectChat_is_quiet (w : world) (s : nat) (code : Z) (reason : string) :
  chatSocket_open w = Some s →
  let call := length (promises w) in
  let w2 := run w [CallDisconnectChat; WsClose s code reason] in
  (promises w2 !! call = Some Resolved
   ∧ chatSocket (this w2) = None
   ∧ chatHeartbeatInterval (this w2) = None
   ∧ chatReconnectAttempts (this w2) = 0
   ∧ emitted w2 = emitted w
   ∧ timers w2 = timers w
   ∧ token_requests w2 = token_requests w
   ∧ (readyState <$> sockets w2 !! s) = Some CLOSED)
  ∧ ∀ w0, chatSocket (this w0) = None →
      step w0 CallDisconnectChat = set_promises (promises w0 ++ [Resolved]) w0.
Proof.
  intros Hopen. cbn zeta. split.
  - apply ChatFacts.chatSocket_open_Some in Hopen as (Hcs & sk & Hs & Hr).
    set (k := Caller (length (promises w))).
    set (wp := set_promises (promises w ++ [Pending]) w).
    destruct (ChatFacts._cleanupChatConnection_spec wp)
      as (Hra & Hhb & Hcs' & Hcc & Hmx & Hsk & Htm & Hpr & Hfe & Htr & Hse & Hem & _).
    set (w0 := _cleanupChatConnection wp) in *.
    assert (sockets w0 !! s = Some sk) as Hs0 by (rewrite Hsk; by open_world w).
    assert (chatSocket (this wp) = Some s) as Hcsp by (by open_world w).
    assert (chatSocket_open w0 = Some s) as Hop.
    { unfold chatSocket_open. by rewrite Hcs', Hcsp, Hs0, Hr. }
    pose proof (ChatFacts.set_onclose_lookup s (OnCloseOfDisconnect k) _ _ Hs0) as Hs1.
    set (w1 := set_onclose s (OnCloseOfDisconnect k) w0) in *.
    pose proof (ChatFacts.set_readyState_lookup s CLOSING _ _ Hs1) as Hs2.
    set (w2 := set_readyState s CLOSING w1) in *.
    assert (run w [CallDisconnectChat; WsClose s code reason]
            = step w2 (WsClose s code reason)) as ->.
    { change (run w [CallDisconnectChat; WsClose s code reason])
        with (step (disconnectChat k wp) (WsClose s code reason)).
      unfold disconnectChat. rewrite Hcsp.
      change (_cleanupChatConnection wp) with w0. by rewrite Hop. }
    rewrite (ChatFacts.step_WsClose _ _ _ _ _ Hs2). cbn [onclose].
    unfold onclose_of_disconnect.
    pose proof (ChatFacts.set_readyState_lookup s CLOSED _ _ Hs2) as Hs3.
    set (w3 := set_readyState s CLOSED w2) in *.
    assert (∃ l3, w3 = set_sockets l3 w0) as (l3 & Hw3).
    { subst w3 w2 w1. unfold set_readyState, set_onclose.
      destruct (ChatFacts.modify_socket_is_set_sockets s
        (λ sk, Socket (readyState sk) (OnCloseOfDisconnect k) (sock_channelId sk)
                 (sock_token sk) (sock_call sk)) w0) as (l1 & -> & Hl1).
      destruct (ChatFacts.modify_socket_is_set_sockets s
        (λ sk, Socket CLOSING (onclose sk) (sock_channelId sk)
                 (sock_token sk) (sock_call sk)) (set_sockets l1 w0))
        as (l2 & -> & Hl2).
      destruct (ChatFacts.modify_socket_is_set_sockets s
        (λ sk, Socket CLOSED (onclose sk) (sock_channelId sk)
                 (sock_token sk) (sock_call sk)) (set_sockets l2 (set_sockets l1 w0)))
        as (l3 & -> & Hl3).
      exists l3. by open_world w0. }
    assert (sockets w3 = l3) as Hl by (rewrite Hw3; by open_world w0).
    rewrite Hl in Hs3. subst k. unfold resume.
    assert (promises w0 = promises w ++ [Pending]) as Hpr' by (rewrite Hpr; by open_world w).
    assert (token_requests w0 = token_requests w) by (rewrite Htr; by open_world w).
    assert (emitted w0 = emitted w) by (rewrite Hem; by open_world w).
    assert (timers w0 = timers w) by (rewrite Htm; by open_world w).
    rewrite Hw3. clear Hw3 Hs0 Hs1 Hs2 Hop Hl.
    open_world w0. simpl in *. unfold settle. simpl. rewrite Hpr', lookup_snoc.
    simpl. rewrite insert_snoc, lookup_snoc, Hs3. repeat split; congruence.
  - intros w0 Hnone. simpl. unfold disconnectChat. simpl.
    open_world w0. simpl in *. rewrite Hnone. unfold resume, settle. simpl.
    by rewrite lookup_snoc, insert_snoc.
Qed.

Lemma disconnectChat_is_quiet_witness :
  let call := length (promises connected) in
  let w2 := run connected [CallDisconnectChat; WsClose 0 1000 ""] in
  (promises w2 !! call = Some Resolved
   ∧ chatSocket (this w2) = None
   ∧ chatHeartbeatInterval (this w2) = None
   ∧ chatReconnectAttempts (this w2) = 0
   ∧ emitted w2 = emitted connected
   ∧ timers w2 = timers connected
   ∧ token_requests w2 = token_requests connected
   ∧ (readyState <$> sockets w2 !! 0%nat) = Some CLOSED)
  ∧ ∀ w0, chatSocket (this w0) = None →
      step w0 CallDisconnectChat = set_promises (promises w0 ++ [Resolved]) w0.
Proof.
  apply (disconnectChat_is_quiet connected 0 1000 ""). reflexivity.
Defined.

(** [disconnectChat()] while the socket is still connecting does not close
    it: [chatSocket] becomes null and the promise resolves, but the socket
    keeps its callbacks.  When it then opens, [chatConnected] is emitted and
    a heartbeat is started, although no AUTH frame is sent and [chatSocket]
    stays null. *)
Theorem disconnectChat_leaks_connecting_socket (w : world) (s : nat) (sk : socket) :
  chatSocket (this w) = Some s →
  sockets w !! s = Some sk →
  readyState sk = CONNECTING →
  let call := length (promises w) in
  let w1 := step w CallDisconnectChat in
  (chatSocket (this w1) = None
   ∧ sockets w1 = sockets w
   ∧ promises w1 !! call = Some Resolved
   ∧ emitted w1 = emitted w)
  ∧ let w2 := step w1 (WsOpen s) in
    emitted w2 = emitted w ++ [chatConnected (sock_channelId sk)]
    ∧ sent w2 = sent w
    ∧ chatSocket (this w2) = None
    ∧ (readyState <$> sockets w2 !! s) = Some OPEN
    ∧ ∃ i, chatHeartbeatInterval (this w2) = Some i ∧ intervals w2 !! i = Some true.
Proof.
  intros Hcs Hs Hr. cbn zeta.
  set (k := Caller (length (promises w))).
  set (wp := set_promises (promises w ++ [Pending]) w).
  destruct (ChatFacts._cleanupChatConnection_spec wp)
    as (Hra & Hhb & Hcs' & Hcc & Hmx & Hsk & Htm & Hpr & Hfe & Htr & Hse & Hem & _).
  set (w0 := _cleanupChatConnection wp) in *.
  assert (sockets w0 !! s = Some sk) as Hs0 by (rewrite Hsk; by open_world w).
  assert (chatSocket (this wp) = Some s) as Hcsp by (by open_world w).
  assert (chatSocket_open w0 = None) as Hop.
  { unfold chatSocket_open. by rewrite Hcs', Hcsp, Hs0, Hr. }
  assert (step w CallDisconnectChat
          = settle (length (promises w)) Resolved (set_chatSocket None w0)) as ->.
  { change (step w CallDisconnectChat) with (disconnectChat k wp).
    unfold disconnectChat. rewrite Hcsp.
    change (_cleanupChatConnection wp) with w0. by rewrite Hop. }
  assert (promises w0 = promises w ++ [Pending]) as Hpr' by (rewrite Hpr; by open_world w).
  assert (emitted w0 = emitted w) as Hem' by (rewrite Hem; by open_world w).
  assert (sent w0 = sent w) as Hse' by (rewrite Hse; by open_world w).
  assert (sockets w0 = sockets w) as Hsk' by (rewrite Hsk; by open_world w).
  set (w1 := settle _ _ _).
  assert (w1 = set_promises (promises w ++ [Resolved]) (set_chatSocket None w0)) as Hw1.
  { subst w1. unfold settle. open_world w0. simpl in *.
    by rewrite Hpr', lookup_snoc, insert_snoc. }
  assert (sockets w1 !! s = Some sk) as Hs1 by (rewrite Hw1; by open_world w0).
  split.
  - rewrite Hw1. open_world w0. simpl in *. rewrite lookup_snoc.
    repeat split; congruence.
  - rewrite (step_WsOpen _ _ _ Hs1 Hr).
    pose proof (ChatFacts.set_readyState_lookup s OPEN _ _ Hs1) as Hs2.
    destruct (ChatFacts.set_readyState_frame s OPEN w1) as (Ht & _ & _ & Hem2 & _).
    assert (sent (set_readyState s OPEN w1) = sent w1) as Hse2.
    { unfold set_readyState.
      destruct (ChatFacts.modify_socket_is_set_sockets s
                  (λ sk0, Socket OPEN (onclose sk0) (sock_channelId sk0)
                            (sock_token sk0) (sock_call sk0)) w1) as (l & -> & _).
      by destruct w1. }
    set (w2 := set_readyState s OPEN w1) in *.
    assert (chatSocket (this w1) = None) as Hnone by (rewrite Hw1; by open_world w0).
    assert (chatSocket_open w2 = None) as Hopen2.
    { unfold chatSocket_open. by rewrite Ht, Hnone. }
    destruct (onopen_frame sk w2) as (Hsent & Hemit & Hcs2 & Hsk2 & _ & Hhb2).
    rewrite Hopen2 in Hsent. rewrite Hsent, Hemit, Hcs2, Hsk2, Hs2, Hse2, Hem2, Ht.
    repeat split; try done.
    + rewrite Hw1. open_world w0. simpl in *. congruence.
    + rewrite Hw1. open_world w0. simpl in *. congruence.
Qed.

Lemma disconnectChat_leaks_connecting_socket_witness :
  let sk := Socket CONNECTING OnCloseOfConnect "c1" "token" 0 in
  let call := length (promises awaiting_open) in
  let w1 := step awaiting_open CallDisconnectChat in
  (chatSocket (this w1) = None
   ∧ sockets w1 = sockets awaiting_open
   ∧ promises w1 !! call = Some Resolved
   ∧ emitted w1 = emitted awaiting_open)
  ∧ let w2 := step w1 (WsOpen 0) in
    emitted w2 = emitted awaiting_open ++ [chatConnected (sock_channelId sk)]
    ∧ sent w2 = sent awaiting_open
    ∧ chatSocket (this w2) = None
    ∧ (readyState <$> sockets w2 !! 0%nat) = Some OPEN
    ∧ ∃ i, chatHeartbeatInterval (this w2) = Some i ∧ intervals w2 !! i = Some true.
Proof.
  apply (disconnectChat_leaks_connecting_socket awaiting_open 0
           (Socket CONNECTING OnCloseOfConnect "c1" "token" 0)); reflexivity.
Defined.

End SessionFacts.

